(** * Region capture and refinement engine of the Win32 process memory scanner

    A shallow embedding of [memory_scanner.hpp] / [memory_scanner.cpp]:
    [ReadRegionData], [InitialScan], the two [NextScan] overloads and
    [MemoryObject<T>::ReRead], followed by the properties the specification
    states about them.

    Conventions.
    - [IntPtr], [SIZE_T] and [size_t] are 64-bit unsigned integers, carried as
      [Z] with the wrap-around of every addition, subtraction and product
      written out ([wrap]).
    - A [char] buffer is a [list Z] of byte values; [std::vector] is a list
      read with [!!] and written with [<[ _ := _ ]>].
    - The two host primitives are an interface ([Win32]) over an abstract
      state of the target process.  A process [HANDLE] carries that state and
      the trace of the primitive calls made through it.
    - A call has three possible outcomes: it returns, it throws a
      [MemoryScannerException], or it indexes a buffer outside its bounds
      (undefined in C++, kept apart here as [Undefined]).  By-reference
      arguments are returned next to the outcome, also when the call throws. *)

From stdpp Require Import base numbers list sorting strings pretty.

Local Open Scope Z_scope.

(** ** Machine integers and host constants *)

Abbreviation IntPtr := Z (only parsing).
Abbreviation SIZE_T := Z (only parsing).
Abbreviation DWORD := Z (only parsing).
Abbreviation char := Z (only parsing).

Definition wrap (z : Z) : Z := z mod 2 ^ 64.

(** Values of the Windows SDK headers ([WinError.h], [winnt.h]); the
    development never depends on the numbers themselves. *)
Definition ERROR_INVALID_PARAMETER : DWORD := 87.
Definition ERROR_PARTIAL_COPY : DWORD := 299.
Definition MEM_COMMIT : DWORD := 4096.
Definition PAGE_READWRITE : DWORD := 4.
Definition PAGE_EXECUTE_READWRITE : DWORD := 64.

(** ** Exceptions and outcomes *)

(** [MemoryScannerException], one constructor per [throw] site (its message),
    with the Windows error code and the address it was given. *)
Inductive MemoryScannerException :=
  | Cannot_read_process_memory (ec : DWORD) (ptr : IntPtr)
  | Cannot_VirtualQueryEx_process (ec : DWORD)
  | Bytes_read_differs_from_region_size
  | Bytes_read_differs_from_memory_object_size.

(** The error kinds of the specification, and the kind of each exception. *)
Inductive ErrorKind := QueryFailure | ReadFailure | ShortRead.

Definition error_kind (e : MemoryScannerException) : ErrorKind :=
  match e with
  | Cannot_read_process_memory _ _ => ReadFailure
  | Cannot_VirtualQueryEx_process _ => QueryFailure
  | Bytes_read_differs_from_region_size => ShortRead
  | Bytes_read_differs_from_memory_object_size => ShortRead
  end.

Inductive Outcome (A : Type) :=
  | Returned (a : A)
  | Thrown (e : MemoryScannerException)
  | Undefined.
Arguments Returned {A} a.
Arguments Thrown {A} e.
Arguments Undefined {A}.

(** ** The host primitives *)

(** What one [ReadProcessMemory] call reports: its [BOOL] result, the value
    [GetLastError] has afterwards, and the bytes it copied to the start of
    the destination buffer ([*lpNumberOfBytesRead] is their number). *)
Record ReadOutcome := {
  rpm_result : bool;
  rpm_last_error : DWORD;
  rpm_copied : list char
}.

Record MEMORY_BASIC_INFORMATION := {
  BaseAddress : IntPtr;
  RegionSize : SIZE_T;
  State : DWORD;
  Protect : DWORD
}.

(** What one [VirtualQueryEx] call reports: its [SIZE_T] result, the
    structure it filled and the value [GetLastError] has afterwards. *)
Record QueryOutcome := {
  vq_size : SIZE_T;
  vq_mem_info : MEMORY_BASIC_INFORMATION;
  vq_last_error : DWORD
}.

Class Win32 (World : Type) := {
  ReadProcessMemory : World → IntPtr → SIZE_T → ReadOutcome * World;
  VirtualQueryEx : World → IntPtr → QueryOutcome * World
}.

Inductive Event :=
  | EvRead (address : IntPtr) (size : SIZE_T) (o : ReadOutcome)
  | EvQuery (address : IntPtr) (o : QueryOutcome).

Record HANDLE (World : Type) := {
  target : World;
  trace : list Event
}.
Arguments target {World} _.
Arguments trace {World} _.

Definition bytes_read (o : ReadOutcome) : SIZE_T :=
  Z.of_nat (length (rpm_copied o)).

(** The destination buffer after the primitive copied [copied] to its
    start; a buffer never grows. *)
Definition poke (buf copied : list char) : list char :=
  take (length buf) (copied ++ drop (length copied) buf).

(** The condition under which both readers throw "Cannot read process
    memory": the primitive failed and the error is not a partial copy. *)
Definition hard_error (o : ReadOutcome) : bool :=
  negb (rpm_result o) && negb (rpm_last_error o =? ERROR_PARTIAL_COPY).

(** ** Data model *)

Module MemoryRegion.
Record MemoryRegion := {
  base_address : IntPtr;
  length : IntPtr;
  data : list char
}.

Definition ContainsAddress (this : MemoryRegion) (address : IntPtr) : bool :=
  (base_address this <=? address) &&
  (address <? wrap (base_address this + length this)).
End MemoryRegion.

Abbreviation MemoryRegion := MemoryRegion.MemoryRegion.
Abbreviation ContainsAddress := MemoryRegion.ContainsAddress.
Abbreviation base_address := MemoryRegion.base_address.
Abbreviation data := MemoryRegion.data.

(** A scanned element type [T]: its [sizeof] and the value a [const T *]
    obtained by [reinterpret_cast] reads from [sizeof] bytes. *)
Class ScanType (T : Type) := {
  sizeof : Z;
  sizeof_pos : 0 < sizeof;
  reinterpret : list char → T
}.

Definition FilterFn (T : Type) := T → T → bool.

(** [MemoryObject<T>]: the value is held as its object representation, the
    [sizeof(T)] bytes [ReRead] writes through [char *dest]. *)
Record MemoryObject := {
  address : IntPtr;
  value : list char
}.

(** [std::swap (v[i], v[j])] on a vector. *)
Definition swap {A} (v : list A) (i j : nat) : list A :=
  match v !! i, v !! j with
  | Some x, Some y => <[i := y]> (<[j := x]> v)
  | _, _ => v
  end.

(** The buffer [ReadRegionData] leaves in [memory_region.data]:
    [std::make_unique<char[]>(length)] zero-initialises it, then the
    primitive copies into it. *)
Definition read_buffer (len : SIZE_T) (o : ReadOutcome) : list char :=
  poke (replicate (Z.to_nat len) 0) (rpm_copied o).

Definition read_event (r : MemoryRegion) (o : ReadOutcome) : Event :=
  EvRead (base_address r) (MemoryRegion.length r) o.

(** The region [ReadRegionData] produces for [r] when the primitive
    reports [o]. *)
Definition refreshed (r : MemoryRegion) (o : ReadOutcome) : MemoryRegion :=
  {| MemoryRegion.base_address := base_address r;
     MemoryRegion.length := MemoryRegion.length r;
     MemoryRegion.data := read_buffer (MemoryRegion.length r) o |}.

Section Engine.
Context {World : Type} `{!Win32 World}.

Definition log (p : HANDLE World) (w : World) (e : Event) : HANDLE World :=
  {| target := w; trace := trace p ++ [e] |}.

(** ** [ReadRegionData] *)

Definition ReadRegionData (process : HANDLE World) (memory_region : MemoryRegion)
  : Outcome SIZE_T * MemoryRegion * HANDLE World :=
  let base := base_address memory_region in
  let len := MemoryRegion.length memory_region in
  let '(o, w) := ReadProcessMemory (target process) base len in
  let memory_region :=
    {| MemoryRegion.base_address := base;
       MemoryRegion.length := len;
       MemoryRegion.data := read_buffer len o |} in
  let process := log process w (EvRead base len o) in
  if hard_error o
  then (Thrown (Cannot_read_process_memory (rpm_last_error o) base), memory_region, process)
  else (Returned (bytes_read o), memory_region, process).

(** The [new_region] both [NextScan] overloads build before reading. *)
Definition new_region_for (r : MemoryRegion) : MemoryRegion :=
  {| MemoryRegion.base_address := base_address r;
     MemoryRegion.length := MemoryRegion.length r;
     MemoryRegion.data := [] |}.

(** ** [InitialScan] *)

(** The [for (char *address = nullptr;;)] loop has no bound of its own: it
    ends when [VirtualQueryEx] returns 0.  [fuel] bounds the number of
    iterations; [None] means the bound was reached. *)
Fixpoint InitialScan_loop (fuel : nat) (address : IntPtr)
    (regions : list MemoryRegion) (process : HANDLE World)
  : option (Outcome (list MemoryRegion) * HANDLE World) :=
  match fuel with
  | O => None
  | S fuel =>
    let '(q, w) := VirtualQueryEx (target process) address in
    let process := log process w (EvQuery address q) in
    let mem_info := vq_mem_info q in
    if vq_size q =? 0 then
      if vq_last_error q =? ERROR_INVALID_PARAMETER
      then Some (Returned regions, process)
      else Some (Thrown (Cannot_VirtualQueryEx_process (vq_last_error q)), process)
    else
      let address := wrap (address + RegionSize mem_info) in
      if negb (State mem_info =? MEM_COMMIT) then
        InitialScan_loop fuel address regions process
      else if negb (Protect mem_info =? PAGE_READWRITE)
              && negb (Protect mem_info =? PAGE_EXECUTE_READWRITE) then
        InitialScan_loop fuel address regions process
      else
        let region :=
          {| MemoryRegion.base_address := BaseAddress mem_info;
             MemoryRegion.length := RegionSize mem_info;
             MemoryRegion.data := [] |} in
        let '(o, region, process) := ReadRegionData process region in
        match o with
        | Returned n =>
          if negb (n =? RegionSize mem_info)
          then Some (Thrown Bytes_read_differs_from_region_size, process)
          else InitialScan_loop fuel address (regions ++ [region]) process
        | Thrown e => Some (Thrown e, process)
        | Undefined => Some (Undefined, process)
        end
  end.

Definition InitialScan (fuel : nat) (process : HANDLE World) :=
  InitialScan_loop fuel 0 [] process.

(** ** [NextScan], unrestricted overload *)

Section NextScan.
Context `{!ScanType T}.
Variable keep_if : FilterFn T.

(** [reinterpret_cast<const T *>(buf)[i]]: defined when the [sizeof(T)]
    bytes of slot [i] lie inside the buffer. *)
Definition ptr_index (buf : list char) (i : Z) : option T :=
  let slot := take (Z.to_nat sizeof) (drop (Z.to_nat (i * sizeof)) buf) in
  if decide (length slot = Z.to_nat sizeof) then Some (reinterpret slot) else None.

(** [for (size_t i = 0; i < count; ++i)]: [n] is the number of iterations
    left, [count - i]. *)
Fixpoint NextScan_slots (old_ptr new_ptr : list char) (base : IntPtr)
    (n : nat) (i : Z) (found_at_least_one_valid_address : bool)
    (valid_addresses : list IntPtr) : Outcome (bool * list IntPtr) :=
  match n with
  | O => Returned (found_at_least_one_valid_address, valid_addresses)
  | S n =>
    match ptr_index old_ptr i, ptr_index new_ptr i with
    | Some old, Some new =>
      if keep_if old new
      then NextScan_slots old_ptr new_ptr base n (i + 1) true
             (valid_addresses ++ [wrap (base + wrap (i * sizeof))])
      else NextScan_slots old_ptr new_ptr base n (i + 1)
             found_at_least_one_valid_address valid_addresses
    | _, _ => Undefined
    end
  end.

(** [for (size_t r = 0; r < regions.size(); ++r)]: the loop test is the
    lookup of [regions[r]]; [n] bounds the iterations and is
    [regions.size() - r] in [NextScan].  The result carries [new_size] and
    the vector as the loop leaves them. *)
Fixpoint NextScan_regions (n : nat) (r : nat) (regions : list MemoryRegion)
    (new_size : nat) (valid_addresses : list IntPtr) (process : HANDLE World)
  : Outcome (nat * list IntPtr) * list MemoryRegion * HANDLE World :=
  match n, regions !! r with
  | S n, Some region =>
    let '(o, new_region, process) := ReadRegionData process (new_region_for region) in
    match o with
    | Returned _ =>
      let count := MemoryRegion.length region / sizeof in
      match NextScan_slots (data region) (data new_region) (base_address new_region)
              (Z.to_nat count) 0 false valid_addresses with
      | Returned (true, valid_addresses) =>
        let regions := <[r := new_region]> regions in
        let regions := if decide (new_size ≠ r) then swap regions new_size r else regions in
        NextScan_regions n (S r) regions (S new_size) valid_addresses process
      | Returned (false, valid_addresses) =>
        NextScan_regions n (S r) regions new_size valid_addresses process
      | Thrown e => (Thrown e, regions, process)
      | Undefined => (Undefined, regions, process)
      end
    | Thrown e => (Thrown e, regions, process)
    | Undefined => (Undefined, regions, process)
    end
  | _, _ => (Returned (new_size, valid_addresses), regions, process)
  end.

Definition NextScan (process : HANDLE World) (regions : list MemoryRegion)
  : Outcome (list IntPtr) * list MemoryRegion * HANDLE World :=
  let '(o, regions, process) :=
    NextScan_regions (length regions) 0 regions 0 [] process in
  match o with
  | Returned (new_size, valid_addresses) =>
    (Returned valid_addresses, take new_size regions, process)
  | Thrown e => (Thrown e, regions, process)
  | Undefined => (Undefined, regions, process)
  end.

(** ** [NextScan], overload restricted to [valid_addresses] *)

Record AddressCursor := {
  cur_a : nat;
  cur_new_size_a : nat;
  cur_valid_addresses : list IntPtr;
  cur_found : bool
}.

(** The [do { ... } while (a < valid_addresses.size() &&
    regions[r].ContainsAddress(valid_addresses[a]))] loop over the addresses
    of [region]; [n] bounds the iterations and is
    [valid_addresses.size() - a] in [NextScan_restricted]. *)
Fixpoint NextScan_addresses (n : nat) (region : MemoryRegion) (new_data : list char)
    (c : AddressCursor) : Outcome AddressCursor :=
  match n, cur_valid_addresses c !! cur_a c with
  | S n, Some addr =>
    let translated_index := wrap (addr - base_address region) / sizeof in
    match ptr_index (data region) translated_index, ptr_index new_data translated_index with
    | Some old, Some new =>
      let c :=
        if keep_if old new then
          {| cur_a := S (cur_a c);
             cur_new_size_a := S (cur_new_size_a c);
             cur_valid_addresses :=
               if decide (cur_new_size_a c ≠ cur_a c)
               then swap (cur_valid_addresses c) (cur_new_size_a c) (cur_a c)
               else cur_valid_addresses c;
             cur_found := true |}
        else
          {| cur_a := S (cur_a c);
             cur_new_size_a := cur_new_size_a c;
             cur_valid_addresses := cur_valid_addresses c;
             cur_found := cur_found c |} in
      match cur_valid_addresses c !! cur_a c with
      | Some next =>
        if ContainsAddress region next
        then NextScan_addresses n region new_data c
        else Returned c
      | None => Returned c
      end
    | _, _ => Undefined
    end
  | _, _ => Returned c
  end.

(** [while (r < regions.size() && a < valid_addresses.size())]: the loop
    test is the two lookups; [n] bounds the iterations and is
    [regions.size() - r] in [NextScan_restricted]. *)
Fixpoint NextScan_merge (n : nat) (r : nat) (regions : list MemoryRegion)
    (new_size_r : nat) (a new_size_a : nat) (valid_addresses : list IntPtr)
    (process : HANDLE World)
  : Outcome (nat * nat) * list MemoryRegion * list IntPtr * HANDLE World :=
  match n, regions !! r, valid_addresses !! a with
  | S n, Some region, Some addr =>
    if negb (ContainsAddress region addr) then
      NextScan_merge n (S r) regions new_size_r a new_size_a valid_addresses process
    else
      let '(o, new_region, process) := ReadRegionData process (new_region_for region) in
      match o with
      | Returned _ =>
        match NextScan_addresses (length valid_addresses - a) region (data new_region)
                {| cur_a := a; cur_new_size_a := new_size_a;
                   cur_valid_addresses := valid_addresses; cur_found := false |} with
        | Returned c =>
          if cur_found c then
            let regions := <[r := new_region]> regions in
            let regions :=
              if decide (new_size_r ≠ r) then swap regions new_size_r r else regions in
            NextScan_merge n (S r) regions (S new_size_r)
              (cur_a c) (cur_new_size_a c) (cur_valid_addresses c) process
          else
            NextScan_merge n (S r) regions new_size_r
              (cur_a c) (cur_new_size_a c) (cur_valid_addresses c) process
        | Thrown e => (Thrown e, regions, valid_addresses, process)
        | Undefined => (Undefined, regions, valid_addresses, process)
        end
      | Thrown e => (Thrown e, regions, valid_addresses, process)
      | Undefined => (Undefined, regions, valid_addresses, process)
      end
  | _, _, _ => (Returned (new_size_r, new_size_a), regions, valid_addresses, process)
  end.

Definition NextScan_restricted (process : HANDLE World) (regions : list MemoryRegion)
    (valid_addresses : list IntPtr)
  : Outcome () * list MemoryRegion * list IntPtr * HANDLE World :=
  let '(o, regions, valid_addresses, process) :=
    NextScan_merge (length regions) 0 regions 0 0 0 valid_addresses process in
  match o with
  | Returned (new_size_r, new_size_a) =>
    (Returned (), take new_size_r regions, take new_size_a valid_addresses, process)
  | Thrown e => (Thrown e, regions, valid_addresses, process)
  | Undefined => (Undefined, regions, valid_addresses, process)
  end.

(** ** Functional reading of the two refinements

    The specification describes both refinements as one pass that decides,
    item by item, what is kept, and keeps those items in their order.  The
    definitions below say this on lists, without indices or swaps; the
    theorems relate them to the loops above. *)

Definition slot_matches (old_ptr new_ptr : list char) (i : Z) : bool :=
  match ptr_index old_ptr i, ptr_index new_ptr i with
  | Some old, Some new => keep_if old new
  | _, _ => false
  end.

Definition slot_defined (old_ptr new_ptr : list char) (i : Z) : bool :=
  match ptr_index old_ptr i, ptr_index new_ptr i with
  | Some _, Some _ => true
  | _, _ => false
  end.

Definition slot_address (base : IntPtr) (i : Z) : IntPtr :=
  wrap (base + wrap (i * sizeof)).

(** The addresses one region contributes to an unrestricted refinement. *)
Definition matching_addresses (region : MemoryRegion) (new_data : list char)
  : list IntPtr :=
  slot_address (base_address region) <$>
    filter (λ i, slot_matches (data region) new_data i = true)
      (seqZ 0 (MemoryRegion.length region / sizeof)).

Definition slots_defined (region : MemoryRegion) (new_data : list char) : bool :=
  forallb (slot_defined (data region) new_data)
    (seqZ 0 (MemoryRegion.length region / sizeof)).

Definition is_nil {A} (l : list A) : bool :=
  match l with [] => true | _ => false end.

Definition lift_scan (K : list MemoryRegion) (valid_addresses : list IntPtr)
    (o : Outcome (list IntPtr * list MemoryRegion)) : Outcome (nat * list IntPtr) :=
  match o with
  | Returned (addresses, kept) =>
    Returned (length (K ++ kept), valid_addresses ++ addresses)
  | Thrown e => Thrown e
  | Undefined => Undefined
  end.

Fixpoint NextScan_spec (process : HANDLE World) (regions : list MemoryRegion)
  : Outcome (list IntPtr * list MemoryRegion) * HANDLE World :=
  match regions with
  | [] => (Returned ([], []), process)
  | region :: regions =>
    let '(o, new_region, process) := ReadRegionData process (new_region_for region) in
    match o with
    | Returned _ =>
      if slots_defined region (data new_region) then
        let found := matching_addresses region (data new_region) in
        let '(rest, process) := NextScan_spec process regions in
        match rest with
        | Returned (addresses, kept) =>
          (Returned (found ++ addresses,
                     if is_nil found then kept else new_region :: kept), process)
        | Thrown e => (Thrown e, process)
        | Undefined => (Undefined, process)
        end
      else (Undefined, process)
    | Thrown e => (Thrown e, process)
    | Undefined => (Undefined, process)
    end
  end.

Definition translated_index (region : MemoryRegion) (addr : IntPtr) : Z :=
  wrap (addr - base_address region) / sizeof.

(** What one region contributes to an unrestricted refinement when its
    read reports [o]: the matching addresses, and the region itself,
    refreshed, when there is at least one. *)
Definition region_hits (region : MemoryRegion) (o : ReadOutcome) : list IntPtr :=
  matching_addresses region (read_buffer (MemoryRegion.length region) o).

Definition region_kept (region : MemoryRegion) (o : ReadOutcome) : list MemoryRegion :=
  if is_nil (region_hits region o) then [] else [refreshed region o].

(** A region found in the session after a restricted refinement is
    justified by the call: it is an input region [r], re-read during the
    call, holding the bytes read, with a candidate in it on which the
    predicate was true. *)
Definition justified (events : list Event) (regions : list MemoryRegion)
    (valid_addresses : list IntPtr) (new_region : MemoryRegion) : Prop :=
  ∃ r o a,
    r ∈ regions ∧ new_region = refreshed r o ∧ read_event r o ∈ events
    ∧ a ∈ valid_addresses ∧ ContainsAddress r a = true
    ∧ slot_matches (data r) (data new_region) (translated_index r a) = true.

(** The cursor of the address loop on a vector split as kept [KA], dropped
    [JA] and unvisited [RA]. *)
Definition cursor_at (KA JA RA : list IntPtr) (found : bool) : AddressCursor :=
  {| cur_a := length (KA ++ JA);
     cur_new_size_a := length KA;
     cur_valid_addresses := KA ++ JA ++ RA;
     cur_found := found |}.

Definition lift_merge (K : list MemoryRegion) (KA : list IntPtr)
    (o : Outcome (list MemoryRegion * list IntPtr)) : Outcome (nat * nat) :=
  match o with
  | Returned (kept, addresses) => Returned (length (K ++ kept), length (KA ++ addresses))
  | Thrown e => Thrown e
  | Undefined => Undefined
  end.

(** The candidates a region is asked about: the first one (the caller has
    checked it lies in the region) and those that follow while they lie in
    the region.  The result is the kept ones and the candidates left for the
    later regions. *)
Fixpoint addresses_spec (region : MemoryRegion) (new_data : list char)
    (valid_addresses : list IntPtr) : Outcome (list IntPtr * list IntPtr) :=
  match valid_addresses with
  | [] => Returned ([], [])
  | addr :: rest =>
    if slot_defined (data region) new_data (translated_index region addr) then
      let keep := slot_matches (data region) new_data (translated_index region addr) in
      let continue :=
        match rest with
        | next :: _ => ContainsAddress region next
        | [] => false
        end in
      if continue then
        match addresses_spec region new_data rest with
        | Returned (kept, rest) =>
          Returned (if keep then addr :: kept else kept, rest)
        | Thrown e => Thrown e
        | Undefined => Undefined
        end
      else Returned (if keep then [addr] else [], rest)
    else Undefined
  end.

Fixpoint NextScan_restricted_spec (process : HANDLE World)
    (regions : list MemoryRegion) (valid_addresses : list IntPtr)
  : Outcome (list MemoryRegion * list IntPtr) * HANDLE World :=
  match regions, valid_addresses with
  | region :: regions, addr :: _ =>
    if negb (ContainsAddress region addr) then
      NextScan_restricted_spec process regions valid_addresses
    else
      let '(o, new_region, process) := ReadRegionData process (new_region_for region) in
      match o with
      | Returned _ =>
        match addresses_spec region (data new_region) valid_addresses with
        | Returned (found, rest) =>
          let '(o, process) := NextScan_restricted_spec process regions rest in
          match o with
          | Returned (kept, addresses) =>
            (Returned (if is_nil found then kept else new_region :: kept,
                       found ++ addresses), process)
          | Thrown e => (Thrown e, process)
          | Undefined => (Undefined, process)
          end
        | Thrown e => (Thrown e, process)
        | Undefined => (Undefined, process)
        end
      | Thrown e => (Thrown e, process)
      | Undefined => (Undefined, process)
      end
  | _, _ => (Returned ([], []), process)
  end.

End NextScan.

(** ** [MemoryObject<T>::ReRead] *)

Definition ReRead `{!ScanType T} (this : MemoryObject) (process : HANDLE World)
  : Outcome () * MemoryObject * HANDLE World :=
  let ptr := address this in
  let '(o, w) := ReadProcessMemory (target process) ptr (sizeof (T := T)) in
  let this := {| address := ptr; value := poke (value this) (rpm_copied o) |} in
  let process := log process w (EvRead ptr (sizeof (T := T)) o) in
  if hard_error o
  then (Thrown (Cannot_read_process_memory (rpm_last_error o) ptr), this, process)
  else if negb (bytes_read o =? sizeof (T := T))
  then (Thrown Bytes_read_differs_from_memory_object_size, this, process)
  else (Returned (), this, process).

End Engine.

(** ** Predicates of the data model *)

Definition IntPtr_range (z : Z) : Prop := 0 ≤ z < 2 ^ 64.

(** The fields of a region are [IntPtr] values. *)
Definition region_typed (r : MemoryRegion) : Prop :=
  IntPtr_range (base_address r) ∧ IntPtr_range (MemoryRegion.length r).

(** A region is a span of the 64-bit address space. *)
Definition region_in_address_space (r : MemoryRegion) : Prop :=
  region_typed r ∧ base_address r + MemoryRegion.length r ≤ 2 ^ 64.

(** The buffer of a region of a session holds [length] bytes. *)
Definition region_stored (r : MemoryRegion) : Prop :=
  0 ≤ MemoryRegion.length r
  ∧ Z.of_nat (length (data r)) = MemoryRegion.length r.

(** What identifies a region across re-reads: where it is and how long. *)
Definition region_key (r : MemoryRegion) : Z * Z :=
  (base_address r, MemoryRegion.length r).

Definition in_range (k : Z * Z) (x : Z) : Prop := k.1 ≤ x < k.1 + k.2.

(** [k1] lies before [k2]: its base is strictly lower and the two byte
    ranges share no address. *)
Definition range_before (k1 k2 : Z * Z) : Prop :=
  k1.1 < k2.1 ∧ ∀ x, ¬ (in_range k1 x ∧ in_range k2 x).

(** The ordering invariant of a scan session: base addresses strictly
    ascending, no two byte ranges overlapping. *)
Definition SessionOrdered (regions : list MemoryRegion) : Prop :=
  StronglySorted range_before (region_key <$> regions).

(** The ordering invariant of a candidate set. *)
Definition CandidatesOrdered (valid_addresses : list IntPtr) : Prop :=
  StronglySorted Z.lt valid_addresses.

(** ** Traces *)

(** The primitive calls a call made: those of [p'] after those of [p]. *)
Definition new_events {World} (p p' : HANDLE World) : list Event :=
  drop (length (trace p)) (trace p').

(** The items of [l] whose outcome in [outcomes] is to keep, in their order
    in [l]. *)
Definition kept_by {A} (outcomes : list bool) (l : list A) : list A :=
  fst <$> filter (λ x, x.2 = true) (zip l outcomes).

(** Every candidate lies in the byte range of a region of the session. *)
Definition CandidatesInSession (regions : list MemoryRegion)
    (valid_addresses : list IntPtr) : Prop :=
  Forall (λ a, ∃ r, r ∈ regions ∧ in_range (region_key r) a) valid_addresses.

(** The candidate [a] passes a refinement whose reads are [events]: a
    region of the session contains it, was read, and the predicate is true
    on the stored value and the value read at the candidate's slot. *)
Definition candidate_passes `{!ScanType T} (keep_if : FilterFn T)
    (regions : list MemoryRegion) (events : list Event) (a : IntPtr) : Prop :=
  ∃ r ro,
    r ∈ regions ∧ in_range (region_key r) a ∧ read_event r ro ∈ events
    ∧ slot_matches keep_if (data r) (read_buffer (MemoryRegion.length r) ro)
        (translated_index r a) = true.

(** The region descriptors an enumeration yielded: base and size of every
    successful [VirtualQueryEx] of a trace, in order. *)
Definition enumerated (events : list Event) : list (Z * Z) :=
  omap (λ e, match e with
             | EvQuery _ q =>
               if vq_size q =? 0 then None
               else Some (BaseAddress (vq_mem_info q), RegionSize (vq_mem_info q))
             | EvRead _ _ _ => None
             end) events.

(** The structures the successful queries of a trace filled, in order. *)
Definition queried (events : list Event) : list MEMORY_BASIC_INFORMATION :=
  omap (λ e, match e with
             | EvQuery _ q => if vq_size q =? 0 then None else Some (vq_mem_info q)
             | EvRead _ _ _ => None
             end) events.

(** The [VirtualQueryEx] calls of a trace: where each one asked and what it
    reported. *)
Definition queries (events : list Event) : list (IntPtr * QueryOutcome) :=
  omap (λ e, match e with
             | EvQuery address q => Some (address, q)
             | EvRead _ _ _ => None
             end) events.

(** The [ReadProcessMemory] calls of a trace. *)
Definition reads (events : list Event) : list (IntPtr * SIZE_T * ReadOutcome) :=
  omap (λ e, match e with
             | EvRead address size o => Some (address, size, o)
             | EvQuery _ _ => None
             end) events.

(** The descriptors [InitialScan] does not skip: committed, and protected
    exactly read-write or execute-read-write. *)
Definition capturable (m : MEMORY_BASIC_INFORMATION) : bool :=
  (State m =? MEM_COMMIT)
  && ((Protect m =? PAGE_READWRITE) || (Protect m =? PAGE_EXECUTE_READWRITE)).

Definition info_key (m : MEMORY_BASIC_INFORMATION) : Z * Z :=
  (BaseAddress m, RegionSize m).

(** A primitive call after which [InitialScan] goes on: a query that
    reported a region, a read that delivered all the bytes asked for. *)
Definition event_succeeded (e : Event) : Prop :=
  match e with
  | EvQuery _ q => vq_size q ≠ 0
  | EvRead _ size o => hard_error o = false ∧ bytes_read o = size
  end.

(** The primitive call that ends [InitialScan] with outcome [o]. *)
Definition InitialScan_verdict {A} (o : Outcome A) (e : Event) : Prop :=
  match o, e with
  | Returned _, EvQuery _ q =>
    vq_size q = 0 ∧ vq_last_error q = ERROR_INVALID_PARAMETER
  | Thrown (Cannot_VirtualQueryEx_process ec), EvQuery _ q =>
    vq_size q = 0 ∧ ec = vq_last_error q ∧ ec ≠ ERROR_INVALID_PARAMETER
  | Thrown (Cannot_read_process_memory ec ptr), EvRead address _ o =>
    hard_error o = true ∧ ec = rpm_last_error o ∧ ptr = address
  | Thrown Bytes_read_differs_from_region_size, EvRead _ size o =>
    hard_error o = false ∧ bytes_read o ≠ size
  | _, _ => False
  end.

(** A walk of the address space: each query asks at the cursor, and the
    cursor advances by the size the query reported. *)
Fixpoint cursor_walk (cursor : IntPtr) (qs : list (IntPtr * QueryOutcome)) : Prop :=
  match qs with
  | [] => True
  | (address, q) :: qs =>
    address = cursor ∧ cursor_walk (wrap (cursor + RegionSize (vq_mem_info q))) qs
  end.

(** The read [InitialScan] accepted for a captured region: made at its
    base for its length, and delivering the bytes the region holds. *)
Definition captured_by (r : MemoryRegion) (rd : IntPtr * SIZE_T * ReadOutcome) : Prop :=
  rd.1.1 = base_address r
  ∧ rd.1.2 = MemoryRegion.length r
  ∧ data r = rpm_copied rd.2
  ∧ Z.of_nat (length (data r)) = MemoryRegion.length r.

(** A region whose end lies below the top of the address space. *)
Definition region_below_top (r : MemoryRegion) : Prop :=
  region_typed r ∧ base_address r + MemoryRegion.length r < 2 ^ 64.

(** An outcome other than [Undefined]. *)
Definition defined {A} (o : Outcome A) : bool :=
  match o with
  | Undefined => false
  | _ => true
  end.

(** ** A concrete element type and concrete processes *)

Fixpoint little_endian (bytes : list char) : Z :=
  match bytes with
  | [] => 0
  | b :: bytes => b + 256 * little_endian bytes
  end.

(** [std::int32_t] on the little-endian targets of Windows. *)
#[export] Instance int32 : ScanType Z := {|
  sizeof := 4;
  sizeof_pos := eq_refl;
  reinterpret bytes :=
    let u := little_endian bytes in
    if u <? 2 ^ 31 then u else u - 2 ^ 32
|}.

(** The bytes of four [int32] slots. *)
Definition slots_5_7_5_9 : list char :=
  [5; 0; 0; 0; 7; 0; 0; 0; 5; 0; 0; 0; 9; 0; 0; 0].

Definition current_is_5 : FilterFn Z := λ _ current, current =? 5.

(** A process with a fixed memory: every read of [size] bytes at
    [address] succeeds with [memory address size]; every query fails with
    [ERROR_INVALID_PARAMETER]. *)
Definition end_of_address_space : QueryOutcome :=
  {| vq_size := 0;
     vq_mem_info := {| BaseAddress := 0; RegionSize := 0; State := 0; Protect := 0 |};
     vq_last_error := ERROR_INVALID_PARAMETER |}.

Record StaticWorld := { memory : IntPtr → SIZE_T → ReadOutcome;
                        layout : IntPtr → QueryOutcome }.

#[export] Instance StaticWorld_Win32 : Win32 StaticWorld := {|
  ReadProcessMemory w address size := (memory w address size, w);
  VirtualQueryEx w address := (layout w address, w)
|}.

Definition opened (w : StaticWorld) : HANDLE StaticWorld :=
  {| target := w; trace := [] |}.


Definition ok_read (bytes : list char) : ReadOutcome :=
  {| rpm_result := true; rpm_last_error := 0; rpm_copied := bytes |}.

(** The primitive fails with [ERROR_PARTIAL_COPY] after copying [bytes]. *)
Definition partial_copy (bytes : list char) : ReadOutcome :=
  {| rpm_result := false; rpm_last_error := ERROR_PARTIAL_COPY; rpm_copied := bytes |}.

(** The primitive fails with [ERROR_ACCESS_DENIED] (5). *)
Definition access_denied : ReadOutcome :=
  {| rpm_result := false; rpm_last_error := 5; rpm_copied := [] |}.

(** The region of the scenarios: base [0x1000], four [int32] slots. *)
Definition scenario_region : MemoryRegion :=
  {| MemoryRegion.base_address := 4096;
     MemoryRegion.length := 16;
     MemoryRegion.data := slots_5_7_5_9 |}.

(** A process in which every read delivers [bytes] in full. *)
Definition steady_process (bytes : list char) : StaticWorld :=
  {| memory := λ _ _, ok_read bytes; layout := λ _, end_of_address_space |}.

(** A process in which every read is cut short after the bytes [5; 0]. *)
Definition torn_process : StaticWorld :=
  {| memory := λ _ _, partial_copy [5; 0]; layout := λ _, end_of_address_space |}.

(** A process in which every read is refused. *)
Definition denied_process : StaticWorld :=
  {| memory := λ _ _, access_denied; layout := λ _, end_of_address_space |}.

(** A third region, at [0x3000]. *)
Definition third_region : MemoryRegion :=
  {| MemoryRegion.base_address := 12288;
     MemoryRegion.length := 16;
     MemoryRegion.data := slots_5_7_5_9 |}.

(** A process whose memory reads [2,7,2,2] at [0x1000] and [5,7,5,9] at
    [0x2000], and refuses every other read. *)
Definition faulting_process : StaticWorld :=
  {| memory := λ address _,
       if address =? 4096 then ok_read [2; 0; 0; 0; 7; 0; 0; 0; 2; 0; 0; 0; 2; 0; 0; 0]
       else if address =? 8192 then ok_read slots_5_7_5_9
       else access_denied;
     layout := λ _, end_of_address_space |}.

(** One [int32] slot holding 5 at [0x1000]. *)
Definition one_slot_region : MemoryRegion :=
  {| MemoryRegion.base_address := 4096;
     MemoryRegion.length := 4;
     MemoryRegion.data := [5; 0; 0; 0] |}.

Definition slots_5_7_9_9 : list char :=
  [5; 0; 0; 0; 7; 0; 0; 0; 9; 0; 0; 0; 9; 0; 0; 0].

Definition slots_2_7_2_2 : list char :=
  [2; 0; 0; 0; 7; 0; 0; 0; 2; 0; 0; 0; 2; 0; 0; 0].

Definition slots_5_7_2_2 : list char :=
  [5; 0; 0; 0; 7; 0; 0; 0; 2; 0; 0; 0; 2; 0; 0; 0].

(** A second region, at [0x2000]. *)
Definition second_region : MemoryRegion :=
  {| MemoryRegion.base_address := 8192;
     MemoryRegion.length := 16;
     MemoryRegion.data := slots_5_7_5_9 |}.

(** A process in which the reads at [0x1000] deliver the slots [2,7,2,2] and
    all other reads the slots [5,7,5,9]. *)
Definition changed_process : StaticWorld :=
  {| memory := λ address _,
       if address =? 4096 then ok_read slots_2_7_2_2 else ok_read slots_5_7_5_9;
     layout := λ _, end_of_address_space |}.

Definition mapped (base size state protect : Z) : QueryOutcome :=
  {| vq_size := 48;
     vq_mem_info := {| BaseAddress := base; RegionSize := size;
                       State := state; Protect := protect |};
     vq_last_error := 0 |}.

(** A process whose address space is a free region of [0x1000] bytes, a
    committed read-write region of 16 bytes at [0x1000], a committed
    read-only region up to [0x2000], a committed execute-read-write region of
    16 bytes at [0x2000], and nothing above; every read delivers the slots
    [5,7,5,9]. *)
Definition mapped_process : StaticWorld :=
  {| memory := λ _ _, ok_read slots_5_7_5_9;
     layout := λ address,
       if address =? 0 then mapped 0 4096 65536 1
       else if address =? 4096 then mapped 4096 16 MEM_COMMIT PAGE_READWRITE
       else if address =? 4112 then mapped 4112 4080 MEM_COMMIT 2
       else if address =? 8192 then mapped 8192 16 MEM_COMMIT PAGE_EXECUTE_READWRITE
       else end_of_address_space |}.

(** The handle a call that returned left behind. *)
Definition handle_after {World A} (p : HANDLE World)
    (result : option (Outcome A * HANDLE World)) : HANDLE World :=
  match result with
  | Some (_, p') => p'
  | None => p
  end.

Definition int32_probe : MemoryObject :=
  {| address := 4096; value := [0; 0; 0; 0] |}.


(** A region of 16 bytes that ends exactly at the top of the address
    space. *)
Definition top_region : MemoryRegion :=
  {| MemoryRegion.base_address := 2 ^ 64 - 16;
     MemoryRegion.length := 16;
     MemoryRegion.data := slots_5_7_5_9 |}.

(** A region of 6 bytes at [0x1000]: one whole [int32] slot and two more
    bytes. *)
Definition ragged_region : MemoryRegion :=
  {| MemoryRegion.base_address := 4096;
     MemoryRegion.length := 6;
     MemoryRegion.data := [5; 0; 0; 0; 5; 0] |}.

(** ** The text of an exception ([memory_scanner_exception.cpp])

    A [std::string] or [std::string_view] is the list of its characters; a
    [char] array is written with [<[ _ := _ ]>]. *)

Abbreviation ascii := Ascii.ascii (only parsing).
Abbreviation text := (list ascii) (only parsing).

(** A string literal. *)
Definition lit (s : string) : text := String.list_ascii_of_string s.

Definition NUL : ascii := Ascii.zero.

Definition hex_digit_lookup : text := lit "0123456789ABCDEF".

(** [s[i]] on a string literal. *)
Definition char_at (s : text) (i : nat) : ascii := default NUL (s !! i).

(** The loop of [Hex32] and of [Hex64],
    [for (int i = n - 1; i >= 0; --i) { buf[i] = hex_digit_lookup[x & 0xF]; x >>= 4; }],
    with [n] the number of iterations left. *)
Fixpoint Hex_digits (n : nat) (x : Z) (buf : text) : text :=
  match n with
  | O => buf
  | S i =>
    Hex_digits i (Z.shiftr x 4)
      (<[i := char_at hex_digit_lookup (Z.to_nat (Z.land x 15))]> buf)
  end.

(** [x] is a [std::uint_least32_t]; the result is [std::string_view(buf, 8)]. *)
Definition Hex32 (x : Z) (buf : text) : text :=
  take 8 (Hex_digits 8 (x mod 2 ^ 32) buf).

(** [x] is a [std::uint_least64_t]; the result is [std::string_view(buf, 16)]. *)
Definition Hex64 (x : Z) (buf : text) : text :=
  take 16 (Hex_digits 16 (x mod 2 ^ 64) buf).

(** [std::memcpy(dest + at, src.data(), src.size())]: the characters of [src]
    overwrite those of [dest] from [at] on.  The buffer never grows: a
    character written past its end is lost. *)
Definition memcpy (dest : text) (at_ : nat) (src : text) : text :=
  list_inserts at_ src dest.

(** The second loop of [StringCat]: each piece is copied at [append_at],
    which then advances by the piece's size. *)
Fixpoint StringCat_copy (pieces : list text) (result : text) (append_at : nat) : text :=
  match pieces with
  | [] => result
  | piece :: pieces =>
    StringCat_copy pieces (memcpy result append_at piece) (append_at + length piece)
  end.

Definition StringCat (pieces : list text) : text :=
  let new_size := foldl (λ new_size piece, new_size + length piece)%nat 0%nat pieces in
  StringCat_copy pieces (replicate new_size NUL) 0.

(** The part of [std::source_location] the message uses. *)
Record source_location := {
  file_name : text;
  line : N
}.

(** [std::to_string] of an unsigned number: its decimal digits. *)
Definition to_string (n : N) : text := lit (pretty n).

(** [ec_buf] and [ptr_buf] are uninitialised arrays of 8 and 16 [char]s;
    [stack] is what they hold before [Hex32] and [Hex64] write them. *)
Definition ConcatScannerExceptionMessage (stack : ascii) (message : text) (ec : DWORD)
    (void_ptr : IntPtr) (source_location : source_location) : text :=
  let ptr := void_ptr in
  let source_location_line := to_string (line source_location) in
  if (ec =? 0) && (ptr =? 0) then
    StringCat [message; lit " ("; file_name source_location; lit ":";
               source_location_line; lit ")"]
  else if ptr =? 0 then
    let ec_buf := replicate 8 stack in
    StringCat [message; lit "; error code 0x"; Hex32 ec ec_buf; lit " (";
               file_name source_location; lit ":"; source_location_line; lit ")"]
  else
    let ec_buf := replicate 8 stack in
    let ptr_buf := replicate 16 stack in
    StringCat [message; lit "; ptr = 0x"; Hex64 ptr ptr_buf; lit "; error code 0x";
               Hex32 ec ec_buf; lit " ("; file_name source_location; lit ":";
               source_location_line; lit ")"].

(** The members of a [MemoryScannerException] object and its constructor. *)
Record MemoryScannerException_object := {
  message : text;
  windows_error_code : DWORD;
  exception_location : source_location
}.

Definition MemoryScannerException_new (stack : ascii) (message_ : text)
    (windows_error_code_ : DWORD) (ptr : IntPtr) (source_location_ : source_location)
  : MemoryScannerException_object :=
  {| message :=
       ConcatScannerExceptionMessage stack message_ windows_error_code_ ptr
         source_location_;
     windows_error_code := windows_error_code_;
     exception_location := source_location_ |}.

(** The object each [throw] of the engine constructs. *)
Definition thrown_object (stack : ascii) (e : MemoryScannerException)
    (where_ : source_location) : MemoryScannerException_object :=
  match e with
  | Cannot_read_process_memory ec ptr =>
    MemoryScannerException_new stack (lit "Cannot read process memory") ec ptr where_
  | Cannot_VirtualQueryEx_process ec =>
    MemoryScannerException_new stack (lit "Cannot VirtualQueryEx process") ec 0 where_
  | Bytes_read_differs_from_region_size =>
    MemoryScannerException_new stack (lit "Bytes read differs from region size") 0 0 where_
  | Bytes_read_differs_from_memory_object_size =>
    MemoryScannerException_new stack
      (lit "Bytes read differs from memory object size") 0 0 where_
  end.

(** The number a text of hexadecimal digits (upper case) denotes. *)
Definition hex_digit_value (c : ascii) : option Z :=
  let n := Z.of_N (Ascii.N_of_ascii c) in
  if (48 <=? n) && (n <=? 57) then Some (n - 48)
  else if (65 <=? n) && (n <=? 70) then Some (n - 55)
  else None.

Fixpoint hex_value_from (acc : Z) (s : text) : option Z :=
  match s with
  | [] => Some acc
  | c :: s =>
    match hex_digit_value c with
    | Some d => hex_value_from (16 * acc + d) s
    | None => None
    end
  end.

Definition hex_value (s : text) : option Z := hex_value_from 0 s.

Definition DWORD_range (z : Z) : Prop := 0 ≤ z < 2 ^ 32.

(** The error code of an exception is a [DWORD], its pointer an [IntPtr]. *)
Definition exception_typed (e : MemoryScannerException) : Prop :=
  match e with
  | Cannot_read_process_memory ec ptr => DWORD_range ec ∧ IntPtr_range ptr
  | Cannot_VirtualQueryEx_process ec => DWORD_range ec
  | _ => True
  end.

(** What follows the location in the text of an exception. *)
Definition location_text (l : source_location) : text :=
  lit " (" ++ file_name l ++ lit ":" ++ to_string (line l) ++ lit ")".

(** The digits the loop of [Hex32] and [Hex64] leaves in the first [n]
    characters of its buffer, most significant first. *)
Fixpoint hex_text (n : nat) (x : Z) : text :=
  match n with
  | O => []
  | S i => hex_text i (Z.shiftr x 4) ++ [char_at hex_digit_lookup (Z.to_nat (Z.land x 15))]
  end.

(** * Theorems *)

Section SwapCompaction.
Context {A : Type}.
Implicit Types K J R : list A.

Lemma insert_middle K R x y n :
  n = length K → <[n := y]> (K ++ x :: R) = K ++ y :: R.
Proof.
  intros ->. rewrite insert_app_r_alt by lia. by rewrite Nat.sub_diag.
Qed.

Lemma swap_middle K J R x y :
  swap (K ++ x :: J ++ y :: R) (length K) (length K + S (length J))
  = K ++ y :: J ++ x :: R.
Proof.
  unfold swap.
  rewrite list_lookup_middle by done.
  replace (K ++ x :: J ++ y :: R) with ((K ++ x :: J) ++ y :: R)
    by (by rewrite <- app_assoc).
  rewrite (list_lookup_middle (K ++ x :: J) R y) by (rewrite length_app; simpl; lia).
  rewrite (insert_middle (K ++ x :: J)) by (rewrite length_app; simpl; lia).
  rewrite <- app_assoc. simpl.
  by rewrite insert_middle.
Qed.

(** One step of the swap-to-front compaction on a vector split as the
    kept items [K], the dropped ones [J] and the unvisited ones [x :: R]:
    item [x], replaced by [y], joins the kept ones. *)
Lemma compaction_keep K J R x y :
  (if decide (length K ≠ length (K ++ J))
   then swap (<[length (K ++ J) := y]> (K ++ J ++ x :: R)) (length K) (length (K ++ J))
   else <[length (K ++ J) := y]> (K ++ J ++ x :: R))
  = (K ++ [y]) ++ (match J with [] => [] | j :: J' => J' ++ [j] end) ++ R
  ∧ length ((K ++ [y]) ++ (match J with [] => [] | j :: J' => J' ++ [j] end))
    = S (length (K ++ J)).
Proof.
  destruct J as [|j J].
  - rewrite app_nil_r. simpl. rewrite decide_False by lia.
    rewrite insert_middle by done. rewrite <- app_assoc. split; [done|].
    rewrite app_nil_r, length_app. simpl. lia.
  - rewrite decide_True by (rewrite length_app; simpl; lia).
    replace (K ++ (j :: J) ++ x :: R) with ((K ++ j :: J) ++ x :: R)
      by (by rewrite <- app_assoc).
    rewrite insert_middle by done.
    rewrite <- app_assoc. simpl.
    replace (length (K ++ j :: J)) with (length K + S (length J))%nat
      by (rewrite length_app; simpl; lia).
    rewrite swap_middle. split.
    + by rewrite <- ?app_assoc; simpl; rewrite <- ?app_assoc.
    + repeat (rewrite length_app; simpl). lia.
Qed.

(** The same step when the visited item itself is kept (no replacement). *)
Lemma compaction_keep_same K J R x :
  (if decide (length K ≠ length (K ++ J))
   then swap (K ++ J ++ x :: R) (length K) (length (K ++ J))
   else K ++ J ++ x :: R)
  = (K ++ [x]) ++ (match J with [] => [] | j :: J' => J' ++ [j] end) ++ R
  ∧ length ((K ++ [x]) ++ (match J with [] => [] | j :: J' => J' ++ [j] end))
    = S (length (K ++ J)).
Proof.
  destruct (compaction_keep K J R x x) as [Heq Hlen]. split; [|done].
  rewrite <- Heq. rewrite list_insert_id; [done|].
  rewrite app_assoc. by apply list_lookup_middle.
Qed.

Lemma sublist_StronglySorted (R : relation A) l1 l2 :
  l1 `sublist_of` l2 → StronglySorted R l2 → StronglySorted R l1.
Proof.
  intros Hsub. induction Hsub as [|x l1 l2 Hsub IH|x l1 l2 Hsub IH].
  - done.
  - rewrite !StronglySorted_cons. intros [Hall Hsorted]. split; [|by apply IH].
    rewrite Forall_forall in *. eauto using elem_of_sublist.
  - rewrite StronglySorted_cons. intros [_ Hsorted]. by apply IH.
Qed.

End SwapCompaction.

Section Refinement.
Context {World : Type} `{!Win32 World} `{!ScanType T}.
Variable keep_if : FilterFn T.

Lemma NextScan_slots_spec old_ptr new_ptr base n i found valid_addresses :
  NextScan_slots keep_if old_ptr new_ptr base n i found valid_addresses =
  if forallb (slot_defined old_ptr new_ptr) (seqZ i (Z.of_nat n)) then
    let hits :=
      filter (λ j, slot_matches keep_if old_ptr new_ptr j = true) (seqZ i (Z.of_nat n)) in
    Returned (found || negb (is_nil hits), valid_addresses ++ (slot_address base <$> hits))
  else Undefined.
Proof.
  revert i found valid_addresses.
  induction n as [|n IH]; intros i found valid_addresses.
  - simpl. by rewrite orb_false_r, app_nil_r.
  - rewrite seqZ_cons by lia.
    replace (Z.pred (Z.of_nat (S n))) with (Z.of_nat n) by lia.
    replace (Z.succ i) with (i + 1) by lia.
    rewrite filter_cons. cbn [NextScan_slots forallb].
    destruct (decide (slot_matches keep_if old_ptr new_ptr i = true)) as [Hm|Hm];
      unfold slot_matches in Hm; unfold slot_defined at 1;
      destruct (ptr_index old_ptr i) as [old|]; try done;
      destruct (ptr_index new_ptr i) as [new|]; try done;
      destruct (keep_if old new); try done;
      rewrite IH; simpl; destruct (forallb _ _); try done.
    simpl. rewrite orb_true_r. by rewrite <- app_assoc.
Qed.

Lemma seqZ_of_to_nat m c : seqZ m (Z.of_nat (Z.to_nat c)) = seqZ m c.
Proof. unfold seqZ. by rewrite Nat2Z.id. Qed.

Lemma is_nil_fmap {A B} (f : A → B) (l : list A) : is_nil (f <$> l) = is_nil l.
Proof. by destruct l. Qed.

Lemma ReadRegionData_inv (p : HANDLE World) region o new_region p' :
  ReadRegionData p (new_region_for region) = (o, new_region, p') →
  ∃ ro,
    base_address new_region = base_address region
    ∧ MemoryRegion.length new_region = MemoryRegion.length region
    ∧ data new_region = read_buffer (MemoryRegion.length region) ro
    ∧ trace p' = trace p ++ [EvRead (base_address region) (MemoryRegion.length region) ro]
    ∧ o = (if hard_error ro
           then Thrown (Cannot_read_process_memory (rpm_last_error ro) (base_address region))
           else Returned (bytes_read ro)).
Proof.
  unfold ReadRegionData. simpl.
  destruct (ReadProcessMemory _ _ _) as [ro w].
  intros Heq. exists ro.
  destruct (hard_error ro); by inversion Heq.
Qed.

(** The region loop, started on a vector split as kept [K], dropped [J]
    and unvisited [R], does to [R] what [NextScan_spec] says and leaves the
    kept regions, in order, at the front. *)
Lemma NextScan_regions_spec R : ∀ K J valid_addresses (p : HANDLE World),
  ∃ regions',
    NextScan_regions keep_if (length R) (length (K ++ J)) (K ++ J ++ R)
      (length K) valid_addresses p
    = (lift_scan K valid_addresses (NextScan_spec keep_if p R).1, regions',
       (NextScan_spec keep_if p R).2)
    ∧ ∀ addresses kept,
        (NextScan_spec keep_if p R).1 = Returned (addresses, kept) →
        take (length (K ++ kept)) regions' = K ++ kept.
Proof.
  induction R as [|x R IH]; intros K J valid_addresses p.
  - simpl. exists (K ++ J ++ []). rewrite !app_nil_r. split; [done|].
    intros ?? [= <- <-]. rewrite app_nil_r. by rewrite take_app_length.
  - cbn [length NextScan_regions NextScan_spec].
    rewrite app_assoc, list_lookup_middle by done. rewrite <- app_assoc.
    destruct (ReadRegionData p (new_region_for x)) as [[o new_region] p1] eqn:Hread.
    apply ReadRegionData_inv in Hread as (ro & Hbase & Hlen & Hdata & Htrace & ->).
    destruct (hard_error ro); [by eexists|].
    rewrite NextScan_slots_spec, seqZ_of_to_nat.
    unfold slots_defined, matching_addresses.
    destruct (forallb _ _); [|by eexists].
    cbn zeta. rewrite is_nil_fmap, Hbase. simpl.
    set (hits := filter _ _).
    destruct (is_nil hits) eqn:Hnil; simpl.
    + destruct (IH K (J ++ [x]) (valid_addresses ++ (slot_address (base_address x) <$> hits)) p1)
        as (regions' & Hloop & Htake).
      replace (length (K ++ J ++ [x])) with (S (length (K ++ J))) in Hloop
        by (rewrite !length_app; simpl; lia).
      rewrite <- (app_assoc J [x] R) in Hloop. simpl in Hloop. rewrite Hloop.
      exists regions'.
      destruct (NextScan_spec keep_if p1 R) as [[[addresses kept]|e|] p2]; simpl in *.
      * rewrite app_assoc. split; [done|]. intros ?? [= <- <-]. eauto.
      * done.
      * done.
    + destruct (compaction_keep K J R x new_region) as [-> Hlength].
      set (J' := match J with [] => [] | j :: J0 => J0 ++ [j] end) in *.
      destruct (IH (K ++ [new_region]) J'
                  (valid_addresses ++ (slot_address (base_address x) <$> hits)) p1)
        as (regions' & Hloop & Htake).
      rewrite Hlength in Hloop.
      replace (length (K ++ [new_region])) with (S (length K)) in Hloop
        by (rewrite length_app; simpl; lia).
      rewrite Hloop.
      exists regions'.
      destruct (NextScan_spec keep_if p1 R) as [[[addresses kept]|e|] p2]; simpl in *.
      * rewrite <- !app_assoc in *. simpl in *. split; [done|].
        intros ?? [= <- <-]. specialize (Htake _ _ eq_refl).
        by rewrite <- !app_assoc in Htake.
      * done.
      * done.
Qed.

Theorem NextScan_refines (p : HANDLE World) regions :
  match NextScan_spec keep_if p regions with
  | (Returned (addresses, kept), p') =>
    NextScan keep_if p regions = (Returned addresses, kept, p')
  | (Thrown e, p') => ∃ regions', NextScan keep_if p regions = (Thrown e, regions', p')
  | (Undefined, p') => ∃ regions', NextScan keep_if p regions = (Undefined, regions', p')
  end.
Proof.
  unfold NextScan.
  destruct (NextScan_regions_spec regions [] [] [] p) as (regions' & Hloop & Htake).
  simpl in Hloop. rewrite Hloop.
  destruct (NextScan_spec keep_if p regions) as [[[addresses kept]|e|] p']; simpl in *.
  - by rewrite (Htake _ _ eq_refl).
  - by eexists.
  - by eexists.
Qed.

Lemma NextScan_returned (p : HANDLE World) regions addresses regions' p' :
  NextScan keep_if p regions = (Returned addresses, regions', p') →
  NextScan_spec keep_if p regions = (Returned (addresses, regions'), p').
Proof.
  intros Hscan. pose proof (NextScan_refines p regions) as Href.
  destruct (NextScan_spec keep_if p regions) as [[[addresses0 kept]|e|] p0].
  - rewrite Hscan in Href. by inversion Href.
  - destruct Href as [? Href]. rewrite Hscan in Href. by inversion Href.
  - destruct Href as [? Href]. rewrite Hscan in Href. by inversion Href.
Qed.

Ltac cursor_eq :=
  unfold cursor_at;
  rewrite ?orb_true_r, ?orb_false_r, ?app_nil_r; rewrite <- ?app_assoc; simpl;
  f_equal; f_equal; try done; repeat (rewrite length_app; simpl); lia.

(** The address loop, started on a vector split as kept [KA], dropped [JA]
    and unvisited [RA], does to [RA] what [addresses_spec] says. *)
Lemma NextScan_addresses_spec region new_data RA : ∀ KA JA found,
  match addresses_spec keep_if region new_data RA with
  | Returned (kept, rest) =>
    ∃ JA', NextScan_addresses keep_if (length RA) region new_data (cursor_at KA JA RA found)
           = Returned (cursor_at (KA ++ kept) JA' rest (found || negb (is_nil kept)))
  | Thrown e => False
  | Undefined =>
    NextScan_addresses keep_if (length RA) region new_data (cursor_at KA JA RA found)
    = Undefined
  end.
Proof.
  induction RA as [|addr RA IH]; intros KA JA found.
  - simpl. exists JA. unfold cursor_at. by rewrite !app_nil_r, orb_false_r.
  - cbn [length NextScan_addresses addresses_spec cursor_at cur_a cur_valid_addresses
         cur_new_size_a cur_found].
    rewrite (app_assoc KA JA), list_lookup_middle by done. rewrite <- app_assoc.
    fold (translated_index region addr).
    unfold slot_defined, slot_matches.
    destruct (ptr_index (data region) _) as [old|]; [|done].
    destruct (ptr_index new_data _) as [new|]; [|done].
    destruct (keep_if old new).
    + cbn [cur_a cur_valid_addresses cur_new_size_a cur_found].
      destruct (compaction_keep_same KA JA RA addr) as [-> Hlength].
      set (J' := match JA with [] => [] | j :: J0 => J0 ++ [j] end) in *.
      rewrite <- Hlength.
      destruct RA as [|next RA].
      * rewrite app_nil_r, lookup_ge_None_2 by done.
        exists J'. cursor_eq.
      * rewrite app_assoc, list_lookup_middle by done. rewrite <- app_assoc.
        destruct (ContainsAddress region next).
        -- specialize (IH (KA ++ [addr]) J' true).
           destruct (addresses_spec keep_if region new_data (next :: RA))
             as [[kept rest]|e|]; [|done|].
           ++ destruct IH as [JA' IH]. exists JA'.
              unfold cursor_at in IH at 1.
              replace (length (KA ++ [addr])) with (S (length KA)) in IH
                by (rewrite length_app; simpl; lia).
              rewrite <- ?app_assoc in IH |- *. simpl in IH |- *.
              rewrite IH. rewrite orb_true_r. simpl.
              by rewrite <- app_assoc.
           ++ unfold cursor_at in IH.
              replace (length (KA ++ [addr])) with (S (length KA)) in IH
                by (rewrite length_app; simpl; lia).
              rewrite <- ?app_assoc in IH |- *. simpl in IH |- *.
              done.
        -- exists J'. cursor_eq.
    + cbn [cur_a cur_valid_addresses cur_new_size_a cur_found].
      replace (S (length (KA ++ JA))) with (length (KA ++ JA ++ [addr]))
        by (rewrite !length_app; simpl; lia).
      replace (KA ++ JA ++ addr :: RA) with (KA ++ (JA ++ [addr]) ++ RA)
        by (by rewrite <- app_assoc).
      destruct RA as [|next RA].
      * rewrite app_nil_r, lookup_ge_None_2 by done.
        exists (JA ++ [addr]). unfold cursor_at.
        by rewrite !app_nil_r, orb_false_r.
      * rewrite (app_assoc KA (JA ++ [addr])), list_lookup_middle by done.
        rewrite <- (app_assoc KA (JA ++ [addr])).
        destruct (ContainsAddress region next).
        -- specialize (IH KA (JA ++ [addr]) found).
           destruct (addresses_spec keep_if region new_data (next :: RA))
             as [[kept rest]|e|]; [|done|].
           ++ destruct IH as [JA' IH]. exists JA'. by rewrite <- IH.
           ++ done.
        -- exists (JA ++ [addr]). unfold cursor_at.
           by rewrite !app_nil_r, orb_false_r.
Qed.

(** The merge loop, started on the two vectors split as kept, dropped and
    unvisited items, does to the unvisited regions [R] and candidates [RA]
    what [NextScan_restricted_spec] says and leaves the kept items, in
    order, at the front of each vector. *)
Lemma NextScan_merge_spec R : ∀ K J KA JA RA (p : HANDLE World),
  ∃ regions' valid_addresses',
    NextScan_merge keep_if (length R) (length (K ++ J)) (K ++ J ++ R) (length K)
      (length (KA ++ JA)) (length KA) (KA ++ JA ++ RA) p
    = (lift_merge K KA (NextScan_restricted_spec keep_if p R RA).1,
       regions', valid_addresses', (NextScan_restricted_spec keep_if p R RA).2)
    ∧ ∀ kept addresses,
        (NextScan_restricted_spec keep_if p R RA).1 = Returned (kept, addresses) →
        take (length (K ++ kept)) regions' = K ++ kept
        ∧ take (length (KA ++ addresses)) valid_addresses' = KA ++ addresses.
Proof.
  induction R as [|x R IH]; intros K J KA JA RA p.
  - cbn. exists (K ++ J), (KA ++ JA ++ RA). rewrite !app_nil_r. split; [done|].
    intros ?? [= <- <-]. rewrite !app_nil_r. by rewrite !take_app_length.
  - cbn [length NextScan_merge NextScan_restricted_spec].
    rewrite (app_assoc K J), list_lookup_middle by done. rewrite <- (app_assoc K J).
    destruct RA as [|addr RA].
    { rewrite app_nil_r, lookup_ge_None_2 by done.
      exists (K ++ J ++ x :: R), (KA ++ JA). cbn. rewrite !app_nil_r. split; [done|].
      intros ?? [= <- <-]. rewrite !app_nil_r. by rewrite !take_app_length. }
    rewrite (app_assoc KA JA), list_lookup_middle by done. rewrite <- (app_assoc KA JA).
    destruct (ContainsAddress x addr); cbn [negb].
    + destruct (ReadRegionData p (new_region_for x)) as [[o new_region] p1] eqn:Hread.
      apply ReadRegionData_inv in Hread as (ro & Hbase & Hlen & Hdata & Htrace & ->).
      destruct (hard_error ro); [by eexists _, _|].
      replace (length (KA ++ JA ++ addr :: RA) - length (KA ++ JA))%nat
        with (length (addr :: RA)) by (rewrite !length_app; simpl; lia).
      pose proof (NextScan_addresses_spec x (data new_region) (addr :: RA) KA JA false)
        as Hinner.
      unfold cursor_at in Hinner at 1 3.
      destruct (addresses_spec keep_if x (data new_region) (addr :: RA))
        as [[found rest]|e|]; [|done|].
      * destruct Hinner as [JA' ->]. simpl.
        destruct (is_nil found) eqn:Hnil; simpl.
        -- destruct (IH K (J ++ [x]) (KA ++ found) JA' rest p1)
             as (regions' & valid_addresses' & Hloop & Htake).
           replace (length (K ++ J ++ [x])) with (S (length (K ++ J))) in Hloop
             by (rewrite !length_app; simpl; lia).
           rewrite <- (app_assoc J [x] R) in Hloop. simpl in Hloop. rewrite Hloop.
           exists regions', valid_addresses'.
           destruct (NextScan_restricted_spec keep_if p1 R rest)
             as [[[kept addresses]|e|] p2]; simpl in *; [|done..].
           rewrite <- !app_assoc in *. split; [done|].
           intros ?? [= <- <-]. specialize (Htake _ _ eq_refl).
           by rewrite <- !app_assoc in Htake.
        -- destruct (compaction_keep K J R x new_region) as [-> Hlength].
           set (J' := match J with [] => [] | j :: J0 => J0 ++ [j] end) in *.
           destruct (IH (K ++ [new_region]) J' (KA ++ found) JA' rest p1)
             as (regions' & valid_addresses' & Hloop & Htake).
           rewrite Hlength in Hloop.
           replace (length (K ++ [new_region])) with (S (length K)) in Hloop
             by (rewrite length_app; simpl; lia).
           rewrite Hloop.
           exists regions', valid_addresses'.
           destruct (NextScan_restricted_spec keep_if p1 R rest)
             as [[[kept addresses]|e|] p2]; simpl in *; [|done..].
           rewrite <- !app_assoc in *. simpl in *. split; [done|].
           intros ?? [= <- <-]. specialize (Htake _ _ eq_refl).
           by rewrite <- !app_assoc in Htake.
      * rewrite Hinner. by eexists _, _.
    + destruct (IH K (J ++ [x]) KA JA (addr :: RA) p)
        as (regions' & valid_addresses' & Hloop & Htake).
      replace (length (K ++ J ++ [x])) with (S (length (K ++ J))) in Hloop
        by (rewrite !length_app; simpl; lia).
      rewrite <- (app_assoc J [x] R) in Hloop. simpl in Hloop. rewrite Hloop.
      by exists regions', valid_addresses'.
Qed.

Theorem NextScan_restricted_refines (p : HANDLE World) regions valid_addresses :
  match NextScan_restricted_spec keep_if p regions valid_addresses with
  | (Returned (kept, addresses), p') =>
    NextScan_restricted keep_if p regions valid_addresses
    = (Returned (), kept, addresses, p')
  | (Thrown e, p') =>
    ∃ regions' valid_addresses',
      NextScan_restricted keep_if p regions valid_addresses
      = (Thrown e, regions', valid_addresses', p')
  | (Undefined, p') =>
    ∃ regions' valid_addresses',
      NextScan_restricted keep_if p regions valid_addresses
      = (Undefined, regions', valid_addresses', p')
  end.
Proof.
  unfold NextScan_restricted.
  destruct (NextScan_merge_spec regions [] [] [] [] valid_addresses p)
    as (regions' & valid_addresses' & Hloop & Htake).
  simpl in Hloop. rewrite Hloop.
  destruct (NextScan_restricted_spec keep_if p regions valid_addresses)
    as [[[kept addresses]|e|] p']; simpl in *.
  - destruct (Htake _ _ eq_refl) as [-> ->]. done.
  - by eexists _, _.
  - by eexists _, _.
Qed.

Lemma NextScan_restricted_returned (p : HANDLE World) regions valid_addresses
    regions' valid_addresses' p' :
  NextScan_restricted keep_if p regions valid_addresses
  = (Returned (), regions', valid_addresses', p') →
  NextScan_restricted_spec keep_if p regions valid_addresses
  = (Returned (regions', valid_addresses'), p').
Proof.
  intros Hscan. pose proof (NextScan_restricted_refines p regions valid_addresses) as Href.
  destruct (NextScan_restricted_spec keep_if p regions valid_addresses)
    as [[[kept addresses]|e|] p0].
  - rewrite Hscan in Href. by inversion Href.
  - destruct Href as (? & ? & Href). rewrite Hscan in Href. by inversion Href.
  - destruct Href as (? & ? & Href). rewrite Hscan in Href. by inversion Href.
Qed.

(** *** What the functional readings return *)

Lemma refreshed_eq region new_region ro :
  base_address new_region = base_address region →
  MemoryRegion.length new_region = MemoryRegion.length region →
  data new_region = read_buffer (MemoryRegion.length region) ro →
  new_region = refreshed region ro.
Proof. destruct new_region. unfold refreshed. simpl. by intros -> -> ->. Qed.

Lemma NextScan_spec_returned R : ∀ (p : HANDLE World) addresses kept p',
  NextScan_spec keep_if p R = (Returned (addresses, kept), p') →
  ∃ ros,
    length ros = length R
    ∧ trace p' = trace p ++ zip_with read_event R ros
    ∧ addresses = mjoin (zip_with (region_hits keep_if) R ros)
    ∧ kept = mjoin (zip_with (region_kept keep_if) R ros).
Proof.
  induction R as [|x R IH]; intros p addresses kept p'.
  - intros [= <- <- <-]. exists []. by rewrite app_nil_r.
  - cbn [NextScan_spec].
    destruct (ReadRegionData p (new_region_for x)) as [[o new_region] p1] eqn:Hread.
    apply ReadRegionData_inv in Hread as (ro & Hbase & Hlen & Hdata & Htrace & ->).
    destruct (hard_error ro); [done|].
    destruct (slots_defined _ _); [|done].
    destruct (NextScan_spec keep_if p1 R) as [[[addresses1 kept1]|e|] p2] eqn:Hrest;
      [|done..].
    intros [= <- <- <-].
    destruct (IH _ _ _ _ Hrest) as (ros & Hlength & Htrace2 & -> & ->).
    exists (ro :: ros). simpl. rewrite Hlength, Htrace2, Htrace, <- app_assoc.
    rewrite (refreshed_eq x new_region ro) by done.
    unfold region_kept, region_hits. simpl.
    repeat split; try done.
    by destruct (is_nil _).
Qed.

Lemma addresses_spec_returned region new_data RA : ∀ kept rest,
  addresses_spec keep_if region new_data RA = Returned (kept, rest) →
  ∃ run,
    RA = run ++ rest
    ∧ kept `sublist_of` run
    ∧ Forall (λ a, slot_matches keep_if (data region) new_data
                     (translated_index region a) = true) kept
    ∧ Forall (λ a, ContainsAddress region a = true) (tail run).
Proof.
  induction RA as [|addr RA IH]; intros kept rest.
  - intros [= <- <-]. exists []. by repeat constructor.
  - cbn [addresses_spec].
    destruct (slot_defined _ _ _); [|done].
    destruct (slot_matches keep_if (data region) new_data (translated_index region addr))
      eqn:Hkeep.
    + destruct RA as [|next RA].
      { intros [= <- <-]. exists [addr]. by repeat constructor. }
      destruct (ContainsAddress region next) eqn:Hnext.
      * destruct (addresses_spec keep_if region new_data (next :: RA))
          as [[kept1 rest1]|e|]; [|done..].
        intros [= <- <-].
        destruct (IH _ _ eq_refl) as (run & Hrun & Hsub & Hall & Htail).
        exists (addr :: run). rewrite Hrun. simpl.
        repeat split; [by constructor|by constructor|].
        destruct run as [|a run]; [done|].
        simpl in Hrun. injection Hrun as <- _. by constructor.
      * intros [= <- <-]. exists [addr]. by repeat constructor.
    + destruct RA as [|next RA].
      { intros [= <- <-]. exists [addr]. by repeat constructor. }
      destruct (ContainsAddress region next) eqn:Hnext.
      * destruct (addresses_spec keep_if region new_data (next :: RA))
          as [[kept1 rest1]|e|]; [|done..].
        intros [= <- <-].
        destruct (IH _ _ eq_refl) as (run & Hrun & Hsub & Hall & Htail).
        exists (addr :: run). rewrite Hrun. simpl.
        repeat split; [by constructor|done|].
        destruct run as [|a run]; [done|].
        simpl in Hrun. injection Hrun as <- _. by constructor.
      * intros [= <- <-]. exists [addr]. by repeat constructor.
Qed.

Lemma justified_mono events events' region regions valid_addresses
    valid_addresses' new_region :
  events ⊆ events' → valid_addresses ⊆ valid_addresses' →
  justified keep_if events regions valid_addresses new_region →
  justified keep_if events' (region :: regions) valid_addresses' new_region.
Proof.
  intros Hev Hva (r & o & a & Hr & Heq & Hread & Ha & Hin & Hkeep).
  exists r, o, a. repeat split; [by right|done|by apply Hev|by apply Hva|done|done].
Qed.

Lemma NextScan_restricted_spec_returned R : ∀ RA (p : HANDLE World) kept addresses p',
  NextScan_restricted_spec keep_if p R RA = (Returned (kept, addresses), p') →
  ∃ events,
    trace p' = trace p ++ events
    ∧ addresses `sublist_of` RA
    ∧ region_key <$> kept `sublist_of` region_key <$> R
    ∧ Forall (justified keep_if events R RA) kept.
Proof.
  induction R as [|x R IH]; intros RA p kept addresses p'.
  - assert (NextScan_restricted_spec keep_if p [] RA = (Returned ([], []), p)) as ->
      by by destruct RA.
    intros [= <- <- <-]. exists []. rewrite app_nil_r.
    repeat split; try done; apply sublist_nil_l.
  - cbn [NextScan_restricted_spec]. destruct RA as [|addr RA].
    { intros [= <- <- <-]. exists []. rewrite app_nil_r.
      repeat split; try done; apply sublist_nil_l. }
    destruct (ContainsAddress x addr) eqn:Hin; cbn [negb].
    + destruct (ReadRegionData p (new_region_for x)) as [[o new_region] p1] eqn:Hread.
      apply ReadRegionData_inv in Hread as (ro & Hbase & Hlen & Hdata & Htrace & ->).
      destruct (hard_error ro); [done|].
      destruct (addresses_spec keep_if x (data new_region) (addr :: RA))
        as [[found rest]|e|] eqn:Hrun; [|done..].
      destruct (NextScan_restricted_spec keep_if p1 R rest)
        as [[[kept1 addresses1]|e|] p2] eqn:Hrest; [|done..].
      intros [= <- <- <-].
      destruct (IH _ _ _ _ _ Hrest) as (events & Htrace2 & Hsub & Hkeys & Hall).
      destruct (addresses_spec_returned _ _ _ _ _ Hrun)
        as (run & Hsplit & Hfound & Hkeep & Htail).
      exists (read_event x ro :: events).
      assert (rest ⊆ addr :: RA) as Hrest_sub.
      { rewrite Hsplit. intros a Ha. apply elem_of_app. by right. }
      assert (Forall (justified keep_if (read_event x ro :: events) (x :: R) (addr :: RA))
                kept1) as Hall'.
      { eapply Forall_impl; [exact Hall|]. intros nr.
        apply justified_mono; [|done]. intros e He. by right. }
      split; [by rewrite Htrace2, Htrace, <- app_assoc|].
      split; [rewrite Hsplit; by apply sublist_app|].
      destruct found as [|a found]; simpl.
      * split; [by apply sublist_cons|done].
      * split.
        { unfold region_key at 1 3. rewrite Hbase, Hlen. by apply sublist_skip. }
        constructor; [|done].
        exists x, ro, a. repeat split.
        -- by left.
        -- by apply refreshed_eq.
        -- by left.
        -- rewrite Hsplit. apply elem_of_app. left.
           eapply elem_of_sublist; [|exact Hfound]. by left.
        -- assert (a ∈ run) as Ha by (eapply elem_of_sublist; [|exact Hfound]; by left).
           destruct run as [|a0 run]; [by apply elem_of_nil in Ha|].
           simpl in Hsplit. injection Hsplit as <- _.
           apply elem_of_cons in Ha as [->|Ha]; [done|].
           simpl in Htail. rewrite Forall_forall in Htail. by apply Htail.
        -- by apply Forall_cons_1 in Hkeep as [? _].
    + intros Hspec.
      destruct (IH _ _ _ _ _ Hspec) as (events & Htrace & Hsub & Hkeys & Hall).
      exists events. repeat split; [done|done|by apply sublist_cons|].
      eapply Forall_impl; [exact Hall|]. intros nr. by apply justified_mono.
Qed.

(** *** Claims on the restricted refinement with no candidate *)

(** C2, in the form the code satisfies.  Called with an empty candidate
    set, the restricted refinement returns at once: the candidate set stays
    empty, every region is removed from the session, and the process handle
    is unchanged, so no primitive was called and no memory was read. *)
Theorem NextScan_restricted_no_candidates (p : HANDLE World) regions :
  NextScan_restricted keep_if p regions [] = (Returned (), [], [], p).
Proof. by destruct regions. Qed.

(** *** Order and stability *)

Lemma ascending_NoDup (l : list Z) : StronglySorted Z.lt l → NoDup l.
Proof.
  induction l as [|x l IH]; [constructor|].
  rewrite StronglySorted_cons. intros [Hall Hsorted].
  constructor; [|by apply IH].
  intros Hin. rewrite Forall_forall in Hall. specialize (Hall _ Hin). lia.
Qed.

Lemma region_kept_keys R : ∀ ros,
  region_key <$> mjoin (zip_with (region_kept keep_if) R ros)
  `sublist_of` region_key <$> R.
Proof.
  induction R as [|x R IH]; intros [|ro ros]; simpl;
    try apply sublist_nil_l.
  rewrite fmap_app. unfold region_kept at 1.
  destruct (is_nil _); simpl.
  - by apply sublist_cons.
  - by apply sublist_skip.
Qed.

Lemma SessionOrdered_sublist regions regions' :
  region_key <$> regions' `sublist_of` region_key <$> regions →
  SessionOrdered regions → SessionOrdered regions'.
Proof. unfold SessionOrdered. apply sublist_StronglySorted. Qed.

(** C5.  After a restricted refinement that returns, the candidate set is
    strictly ascending and free of duplicates when it was strictly
    ascending before, and each of its addresses was in it before the
    call. *)
Theorem NextScan_restricted_candidates (p : HANDLE World) regions valid_addresses
    regions' valid_addresses' p' :
  NextScan_restricted keep_if p regions valid_addresses
  = (Returned (), regions', valid_addresses', p') →
  CandidatesOrdered valid_addresses →
  CandidatesOrdered valid_addresses'
  ∧ NoDup valid_addresses'
  ∧ ∀ a, a ∈ valid_addresses' → a ∈ valid_addresses.
Proof.
  intros Hscan%NextScan_restricted_returned Hsorted.
  apply NextScan_restricted_spec_returned in Hscan as (events & _ & Hsub & _ & _).
  assert (CandidatesOrdered valid_addresses') as Hsorted'
    by (by eapply sublist_StronglySorted).
  split; [done|]. split; [by apply ascending_NoDup|].
  intros a Ha. by eapply elem_of_sublist.
Qed.

Lemma kept_regions_sublist (p : HANDLE World) regions :
  (∀ addresses regions' p',
     NextScan keep_if p regions = (Returned addresses, regions', p') →
     region_key <$> regions' `sublist_of` region_key <$> regions)
  ∧ (∀ valid_addresses regions' valid_addresses' p',
       NextScan_restricted keep_if p regions valid_addresses
       = (Returned (), regions', valid_addresses', p') →
       region_key <$> regions' `sublist_of` region_key <$> regions).
Proof.
  split.
  - intros addresses regions' p' Hscan%NextScan_returned.
    apply NextScan_spec_returned in Hscan as (ros & _ & _ & _ & ->).
    apply region_kept_keys.
  - intros valid_addresses regions' valid_addresses' p'
      Hscan%NextScan_restricted_returned.
    by apply NextScan_restricted_spec_returned in Hscan as (events & _ & ? & ? & _).
Qed.

Lemma InitialScan_loop_returned fuel : ∀ address regs (p : HANDLE World) regions p',
  InitialScan_loop fuel address regs p = Some (Returned regions, p') →
  ∃ events kept,
    trace p' = trace p ++ events
    ∧ regions = regs ++ kept
    ∧ region_key <$> kept `sublist_of` enumerated events.
Proof.
  induction fuel as [|fuel IH]; intros address regs p regions p'; [done|].
  cbn [InitialScan_loop].
  destruct (VirtualQueryEx (target p) address) as [q w].
  set (p0 := log p w (EvQuery address q)).
  assert (∀ events kept,
            region_key <$> kept `sublist_of` enumerated events →
            vq_size q ≠ 0 →
            region_key <$> kept `sublist_of` enumerated (EvQuery address q :: events))
    as Hskip.
  { intros events kept Hsub Hsize. unfold enumerated. cbn [omap list_omap].
    destruct (Z.eqb_spec (vq_size q) 0); [done|]. by apply sublist_cons. }
  destruct (Z.eqb_spec (vq_size q) 0) as [Hsize|Hsize].
  { destruct (vq_last_error q =? ERROR_INVALID_PARAMETER); [|done].
    intros [= <- <-]. exists [EvQuery address q], [].
    rewrite app_nil_r. repeat split; try done. apply sublist_nil_l. }
  destruct (negb (State (vq_mem_info q) =? MEM_COMMIT)).
  { intros Hloop. destruct (IH _ _ _ _ _ Hloop) as (events & kept & Htrace & -> & Hsub).
    exists (EvQuery address q :: events), kept.
    subst p0. simpl in Htrace. rewrite <- app_assoc in Htrace. auto. }
  destruct (negb (Protect (vq_mem_info q) =? PAGE_READWRITE)
            && negb (Protect (vq_mem_info q) =? PAGE_EXECUTE_READWRITE)).
  { intros Hloop. destruct (IH _ _ _ _ _ Hloop) as (events & kept & Htrace & -> & Hsub).
    exists (EvQuery address q :: events), kept.
    subst p0. simpl in Htrace. rewrite <- app_assoc in Htrace. auto. }
  set (region := {| MemoryRegion.base_address := BaseAddress (vq_mem_info q);
                   MemoryRegion.length := RegionSize (vq_mem_info q);
                   MemoryRegion.data := [] |}).
  destruct (ReadRegionData p0 region) as [[o region'] p1] eqn:Hread.
  apply (ReadRegionData_inv p0 region) in Hread
    as (ro & Hbase & Hlen & Hdata & Htrace1 & ->).
  destruct (hard_error ro); [done|].
  destruct (negb (bytes_read ro =? RegionSize (vq_mem_info q))); [done|].
  intros Hloop. destruct (IH _ _ _ _ _ Hloop) as (events & kept & Htrace & -> & Hsub).
  exists (EvQuery address q :: read_event region ro :: events), (region' :: kept).
  subst p0. rewrite Htrace1 in Htrace. simpl in Htrace.
  rewrite <- !app_assoc in Htrace. split; [done|]. split; [by rewrite <- app_assoc|].
  unfold enumerated. cbn [omap list_omap read_event].
  destruct (Z.eqb_spec (vq_size q) 0); [done|].
  rewrite fmap_cons. unfold region_key at 1. rewrite Hbase, Hlen.
  by apply sublist_skip.
Qed.

Lemma new_events_app (p p' : HANDLE World) events :
  trace p' = trace p ++ events → new_events p p' = events.
Proof. intros Htrace. unfold new_events. rewrite Htrace. apply drop_app_length. Qed.

(** C4.  The ordering invariant of the session.  A capture that returns
    yields a session whose base addresses are strictly ascending and whose
    byte ranges do not overlap, when the region descriptors the enumeration
    yielded during the call were so ordered; either refinement, when it
    returns, leaves a session so ordered when the session was so ordered
    before the call. *)
Theorem SessionOrdered_invariant (p : HANDLE World) :
  (∀ fuel regions p',
     InitialScan fuel p = Some (Returned regions, p') →
     StronglySorted range_before (enumerated (new_events p p')) →
     SessionOrdered regions)
  ∧ (∀ regions addresses regions' p',
       NextScan keep_if p regions = (Returned addresses, regions', p') →
       SessionOrdered regions → SessionOrdered regions')
  ∧ (∀ regions valid_addresses regions' valid_addresses' p',
       NextScan_restricted keep_if p regions valid_addresses
       = (Returned (), regions', valid_addresses', p') →
       SessionOrdered regions → SessionOrdered regions').
Proof.
  repeat split.
  - intros fuel regions p' Hscan Hsorted.
    apply InitialScan_loop_returned in Hscan as (events & kept & Htrace & -> & Hsub).
    rewrite (new_events_app _ _ _ Htrace) in Hsorted.
    by eapply sublist_StronglySorted.
  - intros regions addresses regions' p' Hscan.
    apply SessionOrdered_sublist.
    by eapply (proj1 (kept_regions_sublist p regions)).
  - intros regions valid_addresses regions' valid_addresses' p' Hscan.
    apply SessionOrdered_sublist.
    by eapply (proj2 (kept_regions_sublist p regions)).
Qed.

(** *** Which regions survive *)

Lemma SessionOrdered_base_inj regions r1 r2 :
  SessionOrdered regions → r1 ∈ regions → r2 ∈ regions →
  base_address r1 = base_address r2 → r1 = r2.
Proof.
  unfold SessionOrdered.
  induction regions as [|x regions IH]; [by intros _ ?%elem_of_nil|].
  rewrite fmap_cons, StronglySorted_cons, Forall_fmap, Forall_forall.
  intros [Hbefore Hsorted] [->|H1]%elem_of_cons [->|H2]%elem_of_cons Hbase.
  - done.
  - destruct (Hbefore _ H2) as [Hlt _]. simpl in Hlt. lia.
  - destruct (Hbefore _ H1) as [Hlt _]. simpl in Hlt. lia.
  - by apply IH.
Qed.

Lemma wrap_le z : 0 ≤ z → wrap z ≤ z.
Proof. intros. unfold wrap. apply Z.mod_le; lia. Qed.

Lemma ContainsAddress_in_range r a :
  region_typed r → ContainsAddress r a = true → in_range (region_key r) a.
Proof.
  intros [[? ?] [? ?]]. unfold MemoryRegion.ContainsAddress, in_range. simpl.
  intros [Hlow Hhigh]%andb_true_iff.
  apply Z.leb_le in Hlow. apply Z.ltb_lt in Hhigh.
  pose proof (wrap_le (base_address r + MemoryRegion.length r)). lia.
Qed.

Lemma justified_region regions events valid_addresses region new_region :
  SessionOrdered regions → region ∈ regions →
  justified keep_if events regions valid_addresses new_region →
  base_address new_region = base_address region →
  ∃ o a,
    read_event region o ∈ events ∧ a ∈ valid_addresses
    ∧ ContainsAddress region a = true
    ∧ slot_matches keep_if (data region) (read_buffer (MemoryRegion.length region) o)
        (translated_index region a) = true.
Proof.
  intros Hsorted Hin (r & o & a & Hr & -> & Hread & Ha & Hcontains & Hkeep) Hbase.
  simpl in Hbase. assert (r = region) as -> by by eapply SessionOrdered_base_inj.
  by exists o, a.
Qed.

(** C7.  A region whose byte range holds none of the candidates given to a
    restricted refinement is not in the session when the call returns,
    whatever its bytes and whatever the predicate: no region of the session
    then has its base address. *)
Theorem NextScan_restricted_drops_unreferenced (p : HANDLE World) regions
    valid_addresses regions' valid_addresses' p' region :
  NextScan_restricted keep_if p regions valid_addresses
  = (Returned (), regions', valid_addresses', p') →
  SessionOrdered regions →
  region ∈ regions →
  region_typed region →
  (∀ a, a ∈ valid_addresses → ¬ in_range (region_key region) a) →
  ∀ r', r' ∈ regions' → base_address r' ≠ base_address region.
Proof.
  intros Hscan%NextScan_restricted_returned Hsorted Hin Htyped Hnone r' Hr' Hbase.
  apply NextScan_restricted_spec_returned in Hscan as (events & _ & _ & _ & Hall).
  rewrite Forall_forall in Hall.
  destruct (justified_region _ _ _ _ _ Hsorted Hin (Hall _ Hr') Hbase)
    as (o & a & _ & Ha & Hcontains & _).
  by eapply Hnone, ContainsAddress_in_range.
Qed.

Lemma elem_of_join_zip_with {A B C} (f : A → B → list C) l k x :
  x ∈ mjoin (zip_with f l k)
  ↔ ∃ j a b, l !! j = Some a ∧ k !! j = Some b ∧ x ∈ f a b.
Proof.
  rewrite list_elem_of_join. split.
  - intros (xs & Hx & (j & a & b & -> & ? & ?)%elem_of_lookup_zip_with). eauto 6.
  - intros (j & a & b & ? & ? & ?). exists (f a b). split; [done|].
    eauto using elem_of_lookup_zip_with_2.
Qed.

Lemma elem_of_region_hits region ro a :
  a ∈ region_hits keep_if region ro
  ↔ ∃ i, 0 ≤ i < MemoryRegion.length region / sizeof
         ∧ slot_matches keep_if (data region)
             (read_buffer (MemoryRegion.length region) ro) i = true
         ∧ a = slot_address (base_address region) i.
Proof.
  unfold region_hits, matching_addresses. rewrite list_elem_of_fmap.
  setoid_rewrite list_elem_of_filter. setoid_rewrite elem_of_seqZ.
  split.
  - intros (i & -> & ? & ?). exists i. split; [lia|done].
  - intros (i & ? & ? & ->). exists i. split; [done|]. split; [done|lia].
Qed.

Lemma elem_of_region_kept region ro r' :
  r' ∈ region_kept keep_if region ro
  ↔ r' = refreshed region ro ∧ ∃ a, a ∈ region_hits keep_if region ro.
Proof.
  unfold region_kept. destruct (region_hits keep_if region ro) as [|a hits]; simpl.
  - split; [by intros ?%elem_of_nil|]. by intros [_ [a ?%elem_of_nil]].
  - rewrite list_elem_of_singleton. split; [|by intros [? _]].
    intros ->. split; [done|]. exists a. by left.
Qed.

(** What an unrestricted refinement that returns did: one read per region,
    in order; the addresses returned and the regions kept are those of
    [region_hits] and [region_kept] on what was read. *)
Lemma NextScan_returned_elements (p : HANDLE World) regions addresses regions' p' :
  NextScan keep_if p regions = (Returned addresses, regions', p') →
  ∃ ros,
    length ros = length regions
    ∧ new_events p p' = zip_with read_event regions ros
    ∧ addresses = mjoin (zip_with (region_hits keep_if) regions ros)
    ∧ regions' = mjoin (zip_with (region_kept keep_if) regions ros).
Proof.
  intros Hscan%NextScan_returned.
  apply NextScan_spec_returned in Hscan as (ros & ? & Htrace & ? & ?).
  exists ros. by rewrite (new_events_app _ _ _ Htrace).
Qed.

(** C8.  A region none of whose evaluated slots satisfies the predicate is
    not in the session when the refinement returns.  Unrestricted form:
    every slot of the region is evaluated against the bytes read for it.
    Restricted form: the slots evaluated are those of the candidates lying
    in the region. *)
Theorem NextScan_drops_regions_without_match (p : HANDLE World) regions region :
  SessionOrdered regions →
  region ∈ regions →
  (∀ addresses regions' p',
     NextScan keep_if p regions = (Returned addresses, regions', p') →
     (∀ ro i, read_event region ro ∈ new_events p p' →
              0 ≤ i < MemoryRegion.length region / sizeof →
              slot_matches keep_if (data region)
                (read_buffer (MemoryRegion.length region) ro) i = false) →
     ∀ r', r' ∈ regions' → base_address r' ≠ base_address region)
  ∧ (∀ valid_addresses regions' valid_addresses' p',
       NextScan_restricted keep_if p regions valid_addresses
       = (Returned (), regions', valid_addresses', p') →
       (∀ ro a, read_event region ro ∈ new_events p p' →
                a ∈ valid_addresses → ContainsAddress region a = true →
                slot_matches keep_if (data region)
                  (read_buffer (MemoryRegion.length region) ro)
                  (translated_index region a) = false) →
       ∀ r', r' ∈ regions' → base_address r' ≠ base_address region).
Proof.
  intros Hsorted Hin. split.
  - intros addresses regions' p' Hscan Hnone r' Hr' Hbase.
    apply NextScan_returned_elements in Hscan as (ros & _ & Hevents & _ & ->).
    apply elem_of_join_zip_with in Hr' as (j & r & ro & Hr & Hro & Hkept).
    apply elem_of_region_kept in Hkept as [-> [a Ha]]. simpl in Hbase.
    assert (r = region) as ->.
    { eapply SessionOrdered_base_inj; [done| |done|done].
      by eapply list_elem_of_lookup_2. }
    apply elem_of_region_hits in Ha as (i & Hi & Hkeep & _).
    rewrite Hnone in Hkeep; [done| |done].
    rewrite Hevents. apply list_elem_of_lookup. exists j.
    by rewrite lookup_zip_with, Hr, Hro.
  - intros valid_addresses regions' valid_addresses' p'
      Hscan%NextScan_restricted_returned Hnone r' Hr' Hbase.
    apply NextScan_restricted_spec_returned in Hscan as (events & Htrace & _ & _ & Hall).
    rewrite Forall_forall in Hall.
    destruct (justified_region _ _ _ _ _ Hsorted Hin (Hall _ Hr') Hbase)
      as (o & a & Hread & Ha & Hcontains & Hkeep).
    rewrite Hnone in Hkeep; [done| |done|done].
    by rewrite (new_events_app _ _ _ Htrace).
Qed.

(** *** The addresses an unrestricted refinement returns *)

Lemma slot_offset_bound len i :
  0 ≤ len → 0 ≤ i < len / sizeof → 0 ≤ i * sizeof ∧ i * sizeof + sizeof ≤ len.
Proof.
  intros Hlen [Hi Hlt]. pose proof sizeof_pos as Hpos.
  pose proof (Z.mul_div_le len sizeof Hpos). split; nia.
Qed.

Lemma slot_address_exact region i :
  region_in_address_space region →
  0 ≤ i < MemoryRegion.length region / sizeof →
  slot_address (base_address region) i = base_address region + i * sizeof
  ∧ in_range (region_key region) (base_address region + i * sizeof).
Proof.
  intros [[[? ?] [? ?]] ?] Hi.
  destruct (slot_offset_bound (MemoryRegion.length region) i) as [? ?]; [lia|done|].
  pose proof sizeof_pos.
  unfold slot_address, wrap, in_range. simpl.
  rewrite (Z.mod_small (i * sizeof)) by lia.
  rewrite Z.mod_small by lia. lia.
Qed.

Lemma ascending_fmap_on (f : Z → Z) (l : list Z) :
  (∀ i j, i ∈ l → j ∈ l → i < j → f i < f j) →
  StronglySorted Z.lt l → StronglySorted Z.lt (f <$> l).
Proof.
  induction l as [|x l IH]; [constructor|].
  intros Hmono. rewrite fmap_cons, !StronglySorted_cons, Forall_fmap.
  intros [Hall Hsorted]. split.
  - rewrite Forall_forall in *. intros y Hy. simpl.
    apply Hmono; [by left|by right|by apply Hall].
  - apply IH; [|done]. intros i j Hi Hj. apply Hmono; by right.
Qed.

Lemma ascending_seqZ m n : StronglySorted Z.lt (seqZ m n).
Proof.
  destruct (decide (0 ≤ n)) as [Hn|Hn]; [|rewrite seqZ_nil by lia; constructor].
  revert m. pattern n. apply natlike_ind; [| |done].
  - intros m. rewrite seqZ_nil by lia. constructor.
  - intros k Hk IH m. rewrite seqZ_cons by lia.
    replace (Z.pred (Z.succ k)) with k by lia.
    apply StronglySorted_cons. split; [|apply IH].
    apply Forall_seqZ. lia.
Qed.

Lemma region_hits_ascending region ro :
  region_in_address_space region →
  StronglySorted Z.lt (region_hits keep_if region ro).
Proof.
  intros Hspace. unfold region_hits, matching_addresses.
  apply ascending_fmap_on.
  - intros i j [_ Hi%elem_of_seqZ]%list_elem_of_filter
      [_ Hj%elem_of_seqZ]%list_elem_of_filter Hlt.
    destruct (slot_address_exact region i Hspace) as [-> _]; [lia|].
    destruct (slot_address_exact region j Hspace) as [-> _]; [lia|].
    pose proof sizeof_pos. nia.
  - eapply sublist_StronglySorted; [apply sublist_filter|apply ascending_seqZ].
Qed.

Lemma region_hits_in_range region ro a :
  region_in_address_space region →
  a ∈ region_hits keep_if region ro → in_range (region_key region) a.
Proof.
  intros Hspace (i & Hi & _ & ->)%elem_of_region_hits.
  by destruct (slot_address_exact region i Hspace Hi) as [-> ?].
Qed.

Lemma joined_hits_ascending regions : ∀ ros,
  SessionOrdered regions → Forall region_in_address_space regions →
  StronglySorted Z.lt (mjoin (zip_with (region_hits keep_if) regions ros)).
Proof.
  unfold SessionOrdered.
  induction regions as [|x regions IH]; intros [|ro ros]; try (intros; constructor).
  rewrite fmap_cons, StronglySorted_cons, Forall_fmap, Forall_cons.
  intros [Hbefore Hsorted] [Hx Hspace]. simpl.
  apply StronglySorted_app. split; [|split].
  - intros a1 a2 H1%(region_hits_in_range _ _ _ Hx)
      (j & r & ro' & Hr & _ & H2)%elem_of_join_zip_with.
    apply list_elem_of_lookup_2 in Hr.
    rewrite Forall_forall in Hbefore, Hspace.
    apply region_hits_in_range in H2; [|by apply Hspace].
    destruct (Hbefore _ Hr) as [Hlt Hdisjoint].
    unfold in_range in *. simpl in *.
    destruct (decide (a1 < a2)) as [|Hge]; [done|].
    exfalso. apply (Hdisjoint a2). lia.
  - by apply region_hits_ascending.
  - by apply IH.
Qed.

(** C6.  On a session that is ordered and whose regions lie in the address
    space, an unrestricted refinement that returns gives a strictly
    ascending list, and an address is in it exactly when it is the address
    [base + i * sizeof(T)] of a slot [i < length / sizeof(T)] of a region of
    the session at which the predicate is true on the stored slot value and
    the slot value just read for that region. *)
Theorem NextScan_returns_matching_slots (p : HANDLE World) regions addresses regions' p' :
  NextScan keep_if p regions = (Returned addresses, regions', p') →
  SessionOrdered regions →
  Forall region_in_address_space regions →
  StronglySorted Z.lt addresses
  ∧ ∀ a,
      a ∈ addresses
      ↔ ∃ region ro i,
          region ∈ regions
          ∧ read_event region ro ∈ new_events p p'
          ∧ 0 ≤ i < MemoryRegion.length region / sizeof
          ∧ a = base_address region + i * sizeof
          ∧ slot_matches keep_if (data region)
              (read_buffer (MemoryRegion.length region) ro) i = true.
Proof.
  intros Hscan Hsorted Hspace.
  apply NextScan_returned_elements in Hscan as (ros & Hlength & Hevents & -> & _).
  split; [by apply joined_hits_ascending|].
  intros a. rewrite elem_of_join_zip_with, Hevents. split.
  - intros (j & region & ro & Hr & Hro & (i & Hi & Hkeep & ->)%elem_of_region_hits).
    assert (region ∈ regions) as Hin by by eapply list_elem_of_lookup_2.
    rewrite Forall_forall in Hspace.
    destruct (slot_address_exact region i (Hspace _ Hin) Hi) as [-> _].
    exists region, ro, i. repeat split; try done; try lia.
    apply list_elem_of_lookup. exists j. by rewrite lookup_zip_with, Hr, Hro.
  - intros (region & ro & i & Hin & Hread & Hi & -> & Hkeep).
    apply elem_of_lookup_zip_with in Hread as (j & r & ro' & Heq & Hr & Hro).
    injection Heq as Hbase _ <-.
    assert (r = region) as ->.
    { eapply SessionOrdered_base_inj; [done| |done|done].
      by eapply list_elem_of_lookup_2. }
    exists j, region, ro. repeat split; [done|done|].
    apply elem_of_region_hits. exists i. repeat split; try done; try lia.
    rewrite Forall_forall in Hspace.
    by destruct (slot_address_exact region i (Hspace _ Hin) Hi) as [-> _].
Qed.

(** *** The unrestricted refinement stays inside its buffers *)

Lemma read_buffer_length len o : length (read_buffer len o) = Z.to_nat len.
Proof.
  unfold read_buffer, poke.
  rewrite length_take, length_app, length_drop, length_replicate. lia.
Qed.

Lemma ptr_index_defined (buf : list char) i :
  0 ≤ i → i * sizeof + sizeof ≤ Z.of_nat (length buf) →
  is_Some (ptr_index (T := T) buf i).
Proof.
  intros Hi Hfit. pose proof (sizeof_pos (T := T)). unfold ptr_index.
  destruct (decide _) as [|Hshort]; [by eexists|].
  exfalso. apply Hshort. rewrite length_take, length_drop. lia.
Qed.

Lemma slots_defined_stored region new_data :
  region_stored region →
  Z.of_nat (length new_data) = MemoryRegion.length region →
  slots_defined region new_data = true.
Proof.
  intros [Hlen Hdata] Hnew. unfold slots_defined.
  apply forallb_forall. intros i Hi%list_elem_of_In%elem_of_seqZ.
  destruct (slot_offset_bound (MemoryRegion.length region) i) as [? ?]; [done|lia|].
  unfold slot_defined.
  destruct (ptr_index_defined (data region) i) as [old ->]; [lia|lia|].
  by destruct (ptr_index_defined new_data i) as [new ->]; [lia|lia|].
Qed.

(** On a session whose buffers hold what their regions say, an unrestricted
    refinement returns or throws: no slot it compares lies outside a
    buffer. *)
Theorem NextScan_defined (p : HANDLE World) regions :
  Forall region_stored regions →
  (NextScan keep_if p regions).1.1 ≠ Undefined.
Proof.
  intros Hstored.
  assert ((NextScan_spec keep_if p regions).1 ≠ Undefined) as Hspec.
  { revert p. induction Hstored as [|x regions Hx _ IH]; intros p; [done|].
    cbn [NextScan_spec].
    destruct (ReadRegionData p (new_region_for x)) as [[o new_region] p1] eqn:Hread.
    apply ReadRegionData_inv in Hread as (ro & _ & _ & Hdata & _ & ->).
    destruct (hard_error ro); [done|].
    rewrite slots_defined_stored; [|done|].
    - specialize (IH p1).
      by destruct (NextScan_spec keep_if p1 regions) as [[[addresses kept]|e|] p2].
    - destruct Hx as [? _]. rewrite Hdata, read_buffer_length. lia. }
  pose proof (NextScan_refines p regions) as Href.
  destruct (NextScan_spec keep_if p regions) as [[[addresses kept]|e|] p'].
  - by rewrite Href.
  - destruct Href as [regions' ->]. done.
  - done.
Qed.

(** *** What the refinements throw *)

Lemma NextScan_spec_thrown R : ∀ (p : HANDLE World) e,
  (NextScan_spec keep_if p R).1 = Thrown e → error_kind e = ReadFailure.
Proof.
  induction R as [|x R IH]; intros p e; [done|].
  cbn [NextScan_spec].
  destruct (ReadRegionData p (new_region_for x)) as [[o new_region] p1] eqn:Hread.
  apply ReadRegionData_inv in Hread as (ro & _ & _ & _ & _ & ->).
  destruct (hard_error ro); [by intros [= <-]|].
  destruct (slots_defined _ _); [|done].
  specialize (IH p1).
  destruct (NextScan_spec keep_if p1 R) as [[[addresses kept]|e'|] p2]; [done| |done].
  intros [= <-]. by apply IH.
Qed.

Lemma NextScan_restricted_spec_thrown R : ∀ RA (p : HANDLE World) e,
  (NextScan_restricted_spec keep_if p R RA).1 = Thrown e → error_kind e = ReadFailure.
Proof.
  induction R as [|x R IH]; intros RA p e; [by destruct RA|].
  cbn [NextScan_restricted_spec]. destruct RA as [|addr RA]; [done|].
  destruct (ContainsAddress x addr); cbn [negb]; [|by apply IH].
  destruct (ReadRegionData p (new_region_for x)) as [[o new_region] p1] eqn:Hread.
  apply ReadRegionData_inv in Hread as (ro & _ & _ & _ & _ & ->).
  destruct (hard_error ro); [by intros [= <-]|].
  pose proof (NextScan_addresses_spec x (data new_region) (addr :: RA) [] [] false)
    as Hinner.
  destruct (addresses_spec keep_if x (data new_region) (addr :: RA))
    as [[found rest]|e'|]; [|done..].
  specialize (IH rest p1).
  destruct (NextScan_restricted_spec keep_if p1 R rest)
    as [[[kept addresses]|e'|] p2]; [done| |done].
  intros [= <-]. by apply IH.
Qed.

(** X15.  The only [MemoryScannerException] that leaves either refinement
    is the read failure [ReadRegionData] throws: neither throws a
    [ShortRead].  Exceptions of other types, such as [std::bad_alloc] or
    whatever the predicate throws, are not part of the model. *)
Theorem NextScan_throws_only_ReadFailure (p : HANDLE World) regions valid_addresses e :
  ((NextScan keep_if p regions).1.1 = Thrown e → error_kind e = ReadFailure)
  ∧ ((NextScan_restricted keep_if p regions valid_addresses).1.1.1 = Thrown e →
     error_kind e = ReadFailure).
Proof.
  split.
  - pose proof (NextScan_refines p regions) as Href.
    pose proof (NextScan_spec_thrown regions p) as Hthrown.
    destruct (NextScan_spec keep_if p regions) as [[[addresses kept]|e'|] p'].
    + by rewrite Href.
    + destruct Href as [regions' ->]. intros [= <-]. by apply Hthrown.
    + by destruct Href as [regions' ->].
  - pose proof (NextScan_restricted_refines p regions valid_addresses) as Href.
    pose proof (NextScan_restricted_spec_thrown regions valid_addresses p) as Hthrown.
    destruct (NextScan_restricted_spec keep_if p regions valid_addresses)
      as [[[kept addresses]|e'|] p'].
    + by rewrite Href.
    + destruct Href as (regions' & valid_addresses' & ->). intros [= <-]. by apply Hthrown.
    + by destruct Href as (regions' & valid_addresses' & ->).
Qed.

(** *** Fuel of the capture loop *)

Lemma InitialScan_loop_more_fuel fuel : ∀ address regs (p : HANDLE World) result,
  InitialScan_loop fuel address regs p = Some result →
  InitialScan_loop (S fuel) address regs p = Some result.
Proof.
  induction fuel as [|fuel IH]; intros address regs p result; [done|].
  intros Hloop. cbn [InitialScan_loop] in Hloop |- *.
  destruct (VirtualQueryEx (target p) address) as [q w].
  destruct (vq_size q =? 0); [done|].
  destruct (negb (State (vq_mem_info q) =? MEM_COMMIT)); [by apply IH|].
  destruct (negb (Protect (vq_mem_info q) =? PAGE_READWRITE)
            && negb (Protect (vq_mem_info q) =? PAGE_EXECUTE_READWRITE));
    [by apply IH|].
  destruct (ReadRegionData _ _) as [[[n|e|] region] p1]; [|done..].
  destruct (negb (n =? RegionSize (vq_mem_info q))); [done|by apply IH].
Qed.

End Refinement.

(** C2, as stated, fails.  On the session of one region, with no
    candidate, the call does leave the candidate set empty and does not
    touch the process, but it leaves no region: the session is not
    unchanged. *)
Lemma empty_candidates_empty_the_session :
  ¬ (let result :=
       NextScan_restricted current_is_5 (opened (steady_process slots_5_7_5_9))
         [scenario_region] [] in
     result.1.2 = []
     ∧ result.1.1.2 = [scenario_region]
     ∧ result.2 = opened (steady_process slots_5_7_5_9)).
Proof. intros (_ & Hsession & _). discriminate Hsession. Qed.

Section Scenario.
Context {World : Type} `{!Win32 World}.

(** C3.  One region at [0x1000] holding the slots [5,7,5,9]; the fresh read
    delivers the same sixteen bytes; the predicate keeps a slot when its
    current value is 5.  The unrestricted refinement returns
    [[0x1000; 0x1008]] and the session holds the region with the bytes just
    read. *)
Theorem NextScan_scenario (p : HANDLE World) ro w :
  ReadProcessMemory (target p) 4096 16 = (ro, w) →
  hard_error ro = false →
  rpm_copied ro = slots_5_7_5_9 →
  NextScan current_is_5 p [scenario_region]
  = (Returned [4096; 4104],
     [{| MemoryRegion.base_address := 4096;
         MemoryRegion.length := 16;
         MemoryRegion.data := slots_5_7_5_9 |}],
     log p w (EvRead 4096 16 ro)).
Proof.
  intros Hread Hhard Hcopied.
  unfold NextScan. cbn [length NextScan_regions lookup list_lookup scenario_region].
  unfold ReadRegionData. cbn [new_region_for base_address MemoryRegion.length].
  simpl MemoryRegion.base_address. simpl MemoryRegion.length.
  rewrite Hread, Hhard. unfold read_buffer. rewrite Hcopied.
  reflexivity.
Qed.

End Scenario.

Lemma NextScan_scenario_witness :
  NextScan current_is_5 (opened (steady_process slots_5_7_5_9)) [scenario_region]
  = (Returned [4096; 4104], [scenario_region],
     log (opened (steady_process slots_5_7_5_9)) (steady_process slots_5_7_5_9)
       (EvRead 4096 16 (ok_read slots_5_7_5_9))).
Proof.
  apply (NextScan_scenario (opened (steady_process slots_5_7_5_9))
           (ok_read slots_5_7_5_9) (steady_process slots_5_7_5_9));
    reflexivity.
Defined.

Section LiveValue.
Context {World : Type} `{!Win32 World} `{!ScanType T}.

Lemma poke_full (buf copied : list char) :
  length copied = length buf → poke buf copied = copied.
Proof.
  intros Hlen. unfold poke. rewrite <- Hlen.
  rewrite drop_ge by lia. rewrite app_nil_r. by apply take_ge.
Qed.

(** C10.  [ReRead] asks the primitive for [sizeof(T)] bytes at the object's
    address.  When the primitive fails with an error other than a partial
    copy the call throws a [ReadFailure]; otherwise, when fewer than
    [sizeof(T)] bytes were obtained (the primitive having succeeded or
    reported a partial copy) it throws a [ShortRead]; it returns exactly
    when there is no such failure and [sizeof(T)] bytes were obtained, and
    the held value is then the bytes read. *)
Theorem ReRead_outcome (this : MemoryObject) (p : HANDLE World) ro w :
  ReadProcessMemory (target p) (address this) (sizeof (T := T)) = (ro, w) →
  let failed := rpm_result ro = false ∧ rpm_last_error ro ≠ ERROR_PARTIAL_COPY in
  let o := (ReRead (T := T) this p).1.1 in
  let this' := (ReRead (T := T) this p).1.2 in
  (failed → ∃ e, o = Thrown e ∧ error_kind e = ReadFailure)
  ∧ (¬ failed → bytes_read ro < sizeof (T := T) →
     ∃ e, o = Thrown e ∧ error_kind e = ShortRead)
  ∧ (o = Returned () ↔ ¬ failed ∧ bytes_read ro = sizeof (T := T))
  ∧ (o = Returned () → Z.of_nat (length (value this)) = sizeof (T := T) →
     address this' = address this ∧ value this' = rpm_copied ro).
Proof.
  intros Hread. unfold ReRead. rewrite Hread. unfold hard_error, bytes_read.
  destruct (rpm_result ro) eqn:Hresult; simpl;
    destruct (Z.eqb_spec (rpm_last_error ro) ERROR_PARTIAL_COPY) as [Hec|Hec]; simpl;
    destruct (Z.eqb_spec (Z.of_nat (length (rpm_copied ro))) sizeof) as [Hn|Hn]; simpl;
    repeat split;
    first
      [ done
      | by intros; eexists
      | by intros [? ?]
      | intros; lia
      | intros Hnot; by destruct Hnot
      | intros [Hnot ?]; by destruct Hnot
      | by intros _ [? ?]
      | intros; apply poke_full; lia ].
Qed.

End LiveValue.

(** * The theorems at concrete processes *)

Lemma ReRead_outcome_witness :
  (ReRead (T := Z) int32_probe (opened (steady_process [5; 0; 0; 0]))).1.1 = Returned ()
  ∧ value (ReRead (T := Z) int32_probe (opened (steady_process [5; 0; 0; 0]))).1.2
    = [5; 0; 0; 0].
Proof.
  assert (ReadProcessMemory (target (opened (steady_process [5; 0; 0; 0])))
            (address int32_probe) (sizeof (T := Z))
          = (ok_read [5; 0; 0; 0], steady_process [5; 0; 0; 0])) as Hread
    by reflexivity.
  destruct (ReRead_outcome (T := Z) int32_probe _ _ _ Hread)
    as (_ & _ & Hreturns & Hvalue).
  assert ((ReRead (T := Z) int32_probe (opened (steady_process [5; 0; 0; 0]))).1.1
          = Returned ()) as Hok.
  { apply Hreturns. split; [|reflexivity]. intros [Hresult _]. discriminate Hresult. }
  split; [exact Hok|]. apply (Hvalue Hok). reflexivity.
Defined.

(** C1 fails on the code.  [torn_process] cuts every read short: the
    primitive reports [ERROR_PARTIAL_COPY] after two of the four bytes of
    the region.  Neither refinement throws: both return, having compared
    against the zero-padded buffer, and keep the region and the address. *)
Theorem NextScan_short_read_returns :
  bytes_read (memory torn_process 4096 4) < MemoryRegion.length one_slot_region
  ∧ (NextScan current_is_5 (opened torn_process) [one_slot_region]).1
    = (Returned [4096], [one_slot_region])
  ∧ (NextScan_restricted current_is_5 (opened torn_process) [one_slot_region] [4096]).1
    = (Returned (), [one_slot_region], [4096]).
Proof. split; [reflexivity|]. split; reflexivity. Qed.

Lemma SessionOrdered_two :
  SessionOrdered [scenario_region; second_region].
Proof.
  unfold SessionOrdered. repeat constructor; simpl; try lia.
  intros x [[? ?] [? ?]]. simpl in *. lia.
Qed.

Lemma scenario_in_address_space :
  Forall region_in_address_space [scenario_region; second_region].
Proof. repeat constructor; simpl; lia. Qed.

Lemma NextScan_restricted_candidates_witness :
  CandidatesOrdered [4096]
  ∧ NoDup [4096]
  ∧ ∀ a, a ∈ [4096] → a ∈ [4096; 4104].
Proof.
  apply (NextScan_restricted_candidates current_is_5
           (opened (steady_process slots_5_7_9_9)) [scenario_region] [4096; 4104]
           [refreshed scenario_region (ok_read slots_5_7_9_9)] [4096]
           (NextScan_restricted current_is_5 (opened (steady_process slots_5_7_9_9))
              [scenario_region] [4096; 4104]).2).
  - reflexivity.
  - repeat constructor; lia.
Defined.

Lemma NextScan_restricted_drops_unreferenced_witness :
  Forall (λ r', base_address r' ≠ base_address second_region)
    [refreshed scenario_region (ok_read slots_5_7_9_9)].
Proof.
  apply Forall_forall.
  apply (NextScan_restricted_drops_unreferenced current_is_5
           (opened (steady_process slots_5_7_9_9))
           [scenario_region; second_region] [4096; 4104] _ [4096]
           (NextScan_restricted current_is_5 (opened (steady_process slots_5_7_9_9))
              [scenario_region; second_region] [4096; 4104]).2).
  - reflexivity.
  - exact SessionOrdered_two.
  - right. left.
  - repeat split; simpl; lia.
  - intros a Ha [Hlow Hhigh]. simpl in Hlow, Hhigh.
    apply elem_of_cons in Ha as [->|Ha]; [lia|].
    apply list_elem_of_singleton in Ha as ->. lia.
Defined.

Lemma SessionOrdered_invariant_witness :
  InitialScan 5 (opened mapped_process)
  = Some (Returned [scenario_region; second_region],
          handle_after (opened mapped_process) (InitialScan 5 (opened mapped_process)))
  ∧ SessionOrdered [scenario_region; second_region]
  ∧ SessionOrdered [refreshed second_region (ok_read slots_5_7_9_9)].
Proof.
  destruct (SessionOrdered_invariant current_is_5 (opened mapped_process))
    as (Hcapture & _ & _).
  destruct (SessionOrdered_invariant current_is_5 (opened (steady_process slots_5_7_9_9)))
    as (_ & _ & Hrestricted).
  assert (InitialScan 5 (opened mapped_process)
          = Some (Returned [scenario_region; second_region],
                  handle_after (opened mapped_process)
                    (InitialScan 5 (opened mapped_process)))) as Hscan
    by reflexivity.
  split; [exact Hscan|]. split.
  - apply (Hcapture 5%nat _ _ Hscan).
    change (StronglySorted range_before
              [(0, 4096); (4096, 16); (4112, 4080); (8192, 16)]).
    repeat constructor; simpl; try lia;
      intros x [[? ?] [? ?]]; simpl in *; lia.
  - apply (Hrestricted [scenario_region; second_region] [4100; 8192; 8200] _ [8192]
             (NextScan_restricted current_is_5 (opened (steady_process slots_5_7_9_9))
                [scenario_region; second_region] [4100; 8192; 8200]).2).
    + reflexivity.
    + exact SessionOrdered_two.
Defined.

Lemma NextScan_returns_matching_slots_witness :
  StronglySorted Z.lt [4096; 4104; 8192; 8200].
Proof.
  assert (NextScan current_is_5 (opened (steady_process slots_5_7_5_9))
            [scenario_region; second_region]
          = (Returned [4096; 4104; 8192; 8200], [scenario_region; second_region],
             (NextScan current_is_5 (opened (steady_process slots_5_7_5_9))
                [scenario_region; second_region]).2)) as Hscan
    by reflexivity.
  exact (proj1 (NextScan_returns_matching_slots current_is_5 _ _ _ _ _ Hscan
                  SessionOrdered_two scenario_in_address_space)).
Defined.

Lemma NextScan_drops_regions_without_match_witness :
  Forall (λ r', base_address r' ≠ base_address scenario_region)
    [refreshed second_region (ok_read slots_5_7_2_2)].
Proof.
  assert (scenario_region ∈ [scenario_region; second_region]) as Hin by left.
  destruct (NextScan_drops_regions_without_match current_is_5
              (opened (steady_process slots_5_7_2_2)) [scenario_region; second_region]
              scenario_region SessionOrdered_two Hin) as [_ Hrestricted].
  apply Forall_forall.
  apply (Hrestricted [4104; 8192] _ [8192]
           (NextScan_restricted current_is_5 (opened (steady_process slots_5_7_2_2))
              [scenario_region; second_region] [4104; 8192]).2).
  - reflexivity.
  - intros ro a Hread Ha Hcontains.
    change (read_event scenario_region ro
            ∈ [EvRead 4096 16 (ok_read slots_5_7_2_2);
               EvRead 8192 16 (ok_read slots_5_7_2_2)]) in Hread.
    apply elem_of_cons in Hread as [Hread|Hread].
    + injection Hread as ->.
      apply elem_of_cons in Ha as [->|Ha]; [reflexivity|].
      apply list_elem_of_singleton in Ha as ->. discriminate Hcontains.
    + apply list_elem_of_singleton in Hread. discriminate Hread.
Defined.

(** The two restricted scenarios of the specification, continuing C3: the
    memory changes to [5,7,9,9] and the candidates [[0x1000; 0x1008]] become
    [[0x1000]], the region being kept with the bytes read; then the memory
    changes to [2,7,2,2] and the candidate and the region are dropped. *)
Example NextScan_restricted_scenario :
  (NextScan_restricted current_is_5 (opened (steady_process slots_5_7_9_9))
     [scenario_region] [4096; 4104]).1
  = (Returned (),
     [{| MemoryRegion.base_address := 4096;
         MemoryRegion.length := 16;
         MemoryRegion.data := slots_5_7_9_9 |}],
     [4096]).
Proof. reflexivity. Qed.

Example NextScan_restricted_scenario_drop :
  (NextScan_restricted current_is_5 (opened (steady_process slots_2_7_2_2))
     [refreshed scenario_region (ok_read slots_5_7_9_9)] [4096]).1
  = (Returned (), [], []).
Proof. reflexivity. Qed.

(** A refused read aborts the refinement with the read failure. *)
Example NextScan_read_refused :
  (NextScan current_is_5 (opened denied_process) [scenario_region]).1.1
  = Thrown (Cannot_read_process_memory 5 4096).
Proof. reflexivity. Qed.

(** A refinement that throws is over before [regions.resize]: the vector
    is left as the swaps made it.  Here the first region had no match, the
    second was kept and swapped to the front, and the read of the third was
    refused. *)
Example NextScan_thrown_mid_compaction :
  (NextScan current_is_5 (opened faulting_process)
     [scenario_region; second_region; third_region]).1
  = (Thrown (Cannot_read_process_memory 5 12288),
     [second_region; scenario_region; third_region]).
Proof. reflexivity. Qed.

(** * Further properties of the capture *)

Section Capture.
Context {World : Type} `{!Win32 World}.

Lemma queries_query address q events :
  queries (EvQuery address q :: events) = (address, q) :: queries events.
Proof. done. Qed.

Lemma queries_read address size o events :
  queries (EvRead address size o :: events) = queries events.
Proof. done. Qed.

(** What the loop of [InitialScan] did, whatever its outcome: every call
    but the last succeeded, the last one decides the outcome, and the
    queries walk the address space from the cursor. *)
Lemma InitialScan_loop_trace fuel : ∀ address regs (p : HANDLE World) o p',
  InitialScan_loop fuel address regs p = Some (o, p') →
  ∃ earlier e,
    trace p' = trace p ++ earlier ++ [e]
    ∧ Forall event_succeeded earlier
    ∧ InitialScan_verdict o e
    ∧ cursor_walk address (queries (earlier ++ [e])).
Proof.
  induction fuel as [|fuel IH]; intros address regs p o p'; [done|].
  cbn [InitialScan_loop].
  destruct (VirtualQueryEx (target p) address) as [q w].
  set (p0 := log p w (EvQuery address q)).
  assert (∀ o p',
            InitialScan_loop fuel (wrap (address + RegionSize (vq_mem_info q))) regs p0
            = Some (o, p') →
            vq_size q ≠ 0 →
            ∃ earlier e,
              trace p' = trace p ++ earlier ++ [e]
              ∧ Forall event_succeeded earlier
              ∧ InitialScan_verdict o e
              ∧ cursor_walk address (queries (earlier ++ [e]))) as Hskip.
  { intros o1 p1 Hloop Hsize.
    destruct (IH _ _ _ _ _ Hloop) as (earlier & e & Htrace & Hok & Hverdict & Hwalk).
    exists (EvQuery address q :: earlier), e.
    subst p0. simpl in Htrace. rewrite <- app_assoc in Htrace.
    split; [done|]. split; [by constructor|]. split; [done|].
    rewrite <- app_comm_cons, queries_query. by split. }
  destruct (Z.eqb_spec (vq_size q) 0) as [Hsize|Hsize].
  { destruct (Z.eqb_spec (vq_last_error q) ERROR_INVALID_PARAMETER) as [Hec|Hec];
      intros [= <- <-]; exists [], (EvQuery address q); by repeat split. }
  destruct (negb (State (vq_mem_info q) =? MEM_COMMIT)); [by eauto|].
  destruct (negb (Protect (vq_mem_info q) =? PAGE_READWRITE)
            && negb (Protect (vq_mem_info q) =? PAGE_EXECUTE_READWRITE)); [by eauto|].
  set (region := {| MemoryRegion.base_address := BaseAddress (vq_mem_info q);
                   MemoryRegion.length := RegionSize (vq_mem_info q);
                   MemoryRegion.data := [] |}).
  destruct (ReadRegionData p0 region) as [[o1 region'] p1] eqn:Hread.
  apply (ReadRegionData_inv p0 region) in Hread
    as (ro & Hbase & Hlen & Hdata & Htrace1 & ->).
  subst p0. simpl in Htrace1. rewrite <- app_assoc in Htrace1. simpl in Htrace1.
  destruct (hard_error ro) eqn:Hhard.
  { intros [= <- <-]. exists [EvQuery address q], (read_event region ro).
    split; [done|]. split; [by repeat constructor|]. by repeat split. }
  destruct (Z.eqb_spec (bytes_read ro) (RegionSize (vq_mem_info q))) as [Hn|Hn];
    cbn [negb].
  - intros Hloop.
    destruct (IH _ _ _ _ _ Hloop) as (earlier & e & Htrace & Hok & Hverdict & Hwalk).
    exists (EvQuery address q :: read_event region ro :: earlier), e.
    rewrite Htrace1 in Htrace. rewrite <- app_assoc in Htrace.
    split; [done|]. split; [by repeat constructor|]. split; [done|].
    rewrite <- !app_comm_cons, queries_query. unfold read_event.
    rewrite queries_read. by split.
  - intros [= <- <-]. exists [EvQuery address q], (read_event region ro).
    split; [done|]. split; [by repeat constructor|]. by repeat split.
Qed.

Lemma queried_query address q events :
  vq_size q ≠ 0 →
  queried (EvQuery address q :: events) = vq_mem_info q :: queried events.
Proof.
  intros Hsize. unfold queried. cbn [omap list_omap].
  by destruct (Z.eqb_spec (vq_size q) 0).
Qed.

Lemma InitialScan_loop_captured fuel : ∀ address regs (p : HANDLE World) regions p',
  InitialScan_loop fuel address regs p = Some (Returned regions, p') →
  ∃ events kept,
    trace p' = trace p ++ events
    ∧ regions = regs ++ kept
    ∧ region_key <$> kept
      = info_key <$> filter (λ m, capturable m = true) (queried events)
    ∧ Forall2 captured_by kept (reads events).
Proof.
  induction fuel as [|fuel IH]; intros address regs p regions p'; [done|].
  cbn [InitialScan_loop].
  destruct (VirtualQueryEx (target p) address) as [q w].
  set (p0 := log p w (EvQuery address q)).
  assert (∀ regions p',
            InitialScan_loop fuel (wrap (address + RegionSize (vq_mem_info q))) regs p0
            = Some (Returned regions, p') →
            vq_size q ≠ 0 → capturable (vq_mem_info q) = false →
            ∃ events kept,
              trace p' = trace p ++ events
              ∧ regions = regs ++ kept
              ∧ region_key <$> kept
                = info_key <$> filter (λ m, capturable m = true) (queried events)
              ∧ Forall2 captured_by kept (reads events)) as Hskip.
  { intros regions1 p1 Hloop Hsize Hskipped.
    destruct (IH _ _ _ _ _ Hloop) as (events & kept & Htrace & -> & Hkeys & Hreads).
    exists (EvQuery address q :: events), kept.
    subst p0. simpl in Htrace. rewrite <- app_assoc in Htrace.
    split; [done|]. split; [done|].
    rewrite queried_query, filter_cons_False by (done || by rewrite Hskipped).
    done. }
  destruct (Z.eqb_spec (vq_size q) 0) as [Hsize|Hsize].
  { destruct (vq_last_error q =? ERROR_INVALID_PARAMETER); [|done].
    intros [= <- <-]. exists [EvQuery address q], [].
    rewrite app_nil_r. unfold queried. cbn [omap list_omap].
    destruct (Z.eqb_spec (vq_size q) 0); [|done].
    by repeat split; try constructor. }
  unfold capturable in Hskip.
  destruct (State (vq_mem_info q) =? MEM_COMMIT) eqn:Hstate; cbn [negb];
    [|by eauto].
  destruct (Protect (vq_mem_info q) =? PAGE_READWRITE) eqn:Hrw;
    destruct (Protect (vq_mem_info q) =? PAGE_EXECUTE_READWRITE) eqn:Herw;
    cbn [negb andb]; try (by eauto).
  all: set (region := {| MemoryRegion.base_address := BaseAddress (vq_mem_info q);
                        MemoryRegion.length := RegionSize (vq_mem_info q);
                        MemoryRegion.data := [] |});
    destruct (ReadRegionData p0 region) as [[o1 region'] p1] eqn:Hread;
    apply (ReadRegionData_inv p0 region) in Hread
      as (ro & Hbase & Hlen & Hdata & Htrace1 & ->);
    subst p0; simpl in Htrace1; rewrite <- app_assoc in Htrace1; simpl in Htrace1;
    destruct (hard_error ro); [done|];
    destruct (Z.eqb_spec (bytes_read ro) (RegionSize (vq_mem_info q))) as [Hn|Hn];
      cbn [negb]; [|done];
    intros Hloop;
    destruct (IH _ _ _ _ _ Hloop) as (events & kept & Htrace & -> & Hkeys & Hreads);
    exists (EvQuery address q :: read_event region ro :: events), (region' :: kept);
    rewrite Htrace1 in Htrace; rewrite <- app_assoc in Htrace;
    (split; [done|]); (split; [by rewrite <- app_assoc|]);
    rewrite queried_query by done;
    rewrite filter_cons_True by (unfold capturable; by rewrite Hstate, Hrw, Herw);
    (split;
     [ rewrite !fmap_cons; unfold region_key at 1, info_key at 1;
       rewrite Hbase, Hlen; simpl; f_equal; exact Hkeys
     | constructor; [|exact Hreads];
       assert (data region' = rpm_copied ro) as Hfull
         by (rewrite Hdata; apply poke_full; rewrite length_replicate;
             unfold bytes_read in Hn; simpl; lia);
       unfold captured_by; simpl; rewrite Hbase, Hlen, Hfull;
       unfold bytes_read in Hn; by repeat split ]).
Qed.

(** X1.  A capture that returns holds exactly the regions the enumeration
    reported as committed and protected read-write or execute-read-write,
    in the order reported, each with the base and size reported. *)
Theorem InitialScan_captures_committed_writable fuel (p : HANDLE World) regions p' :
  InitialScan fuel p = Some (Returned regions, p') →
  region_key <$> regions
  = info_key <$> filter (λ m, capturable m = true) (queried (new_events p p')).
Proof.
  intros Hscan.
  apply InitialScan_loop_captured in Hscan as (events & kept & Htrace & -> & Hkeys & _).
  by rewrite (new_events_app _ _ _ Htrace).
Qed.

(** X2.  A capture that returns made one read per captured region, in
    order and no other: at the region's base, for its length, and the
    region holds exactly the bytes that read delivered, [length] of them. *)
Theorem InitialScan_buffers_complete fuel (p : HANDLE World) regions p' :
  InitialScan fuel p = Some (Returned regions, p') →
  Forall2 captured_by regions (reads (new_events p p')).
Proof.
  intros Hscan.
  apply InitialScan_loop_captured in Hscan as (events & kept & Htrace & -> & _ & Hreads).
  by rewrite (new_events_app _ _ _ Htrace).
Qed.


(** X4.  The queries of a capture walk the address space: the first asks
    at address 0 and each next one asks where the previous one asked plus
    the size it reported (modulo 2^64), whether or not the region was
    kept. *)
Theorem InitialScan_cursor_walk fuel (p : HANDLE World) o p' :
  InitialScan fuel p = Some (o, p') →
  cursor_walk 0 (queries (new_events p p')).
Proof.
  intros Hscan.
  apply InitialScan_loop_trace in Hscan as (earlier & e & Htrace & _ & _ & Hwalk).
  by rewrite (new_events_app _ _ _ Htrace).
Qed.

End Capture.

Lemma InitialScan_mapped :
  InitialScan 5 (opened mapped_process)
  = Some (Returned [scenario_region; second_region],
          handle_after (opened mapped_process) (InitialScan 5 (opened mapped_process))).
Proof. reflexivity. Qed.

Lemma InitialScan_captures_committed_writable_witness :
  region_key <$> [scenario_region; second_region]
  = info_key <$>
      filter (λ m, capturable m = true)
        (queried (new_events (opened mapped_process)
                    (handle_after (opened mapped_process)
                       (InitialScan 5 (opened mapped_process))))).
Proof.
  exact (InitialScan_captures_committed_writable 5 (opened mapped_process) _ _
           InitialScan_mapped).
Defined.

Lemma InitialScan_buffers_complete_witness :
  Forall2 captured_by [scenario_region; second_region]
    (reads (new_events (opened mapped_process)
              (handle_after (opened mapped_process)
                 (InitialScan 5 (opened mapped_process))))).
Proof.
  exact (InitialScan_buffers_complete 5 (opened mapped_process) _ _ InitialScan_mapped).
Defined.



Lemma InitialScan_cursor_walk_witness :
  cursor_walk 0
    (queries (new_events (opened mapped_process)
                (handle_after (opened mapped_process)
                   (InitialScan 5 (opened mapped_process))))).
Proof.
  exact (InitialScan_cursor_walk 5 (opened mapped_process) _ _ InitialScan_mapped).
Defined.

(** * Further properties of the refinements *)

Section Sessions.
Context {World : Type} `{!Win32 World} `{!ScanType T}.
Variable keep_if : FilterFn T.

Lemma zip_with_read_event regions : ∀ ros,
  length ros = length regions →
  Forall2 (λ r e, ∃ ro, e = read_event r ro) regions (zip_with read_event regions ros).
Proof.
  induction regions as [|r regions IH]; intros [|ro ros] Hlength; try done.
  cbn [zip_with]. constructor; [by exists ro|]. apply IH. simpl in Hlength. lia.
Qed.

Lemma refreshed_stored r ro :
  0 ≤ MemoryRegion.length r → region_stored (refreshed r ro).
Proof.
  intros Hlen. split; [done|]. simpl. rewrite read_buffer_length. lia.
Qed.

(** X5.  An unrestricted refinement that returns made exactly one read per
    region of the session, in the order of the session, at the region's
    base and for its length, whether the region is kept or dropped; and each
    region it leaves in the session is a region of the session before, with
    the same base and length, holding the buffer read for it. *)
Theorem NextScan_reads_every_region (p : HANDLE World) regions addresses regions' p' :
  NextScan keep_if p regions = (Returned addresses, regions', p') →
  Forall2 (λ r e, ∃ ro, e = read_event r ro) regions (new_events p p')
  ∧ Forall (λ r', ∃ r ro, r ∈ regions ∧ read_event r ro ∈ new_events p p'
                          ∧ r' = refreshed r ro) regions'.
Proof.
  intros Hscan.
  apply NextScan_returned_elements in Hscan as (ros & Hlength & Hevents & _ & ->).
  rewrite Hevents. split; [by apply zip_with_read_event|].
  apply Forall_forall. intros r' (j & r & ro & Hr & Hro & Hkept)%elem_of_join_zip_with.
  apply elem_of_region_kept in Hkept as [-> _].
  exists r, ro. split; [by eapply list_elem_of_lookup_2|]. split; [|done].
  apply list_elem_of_lookup. exists j. by rewrite lookup_zip_with, Hr, Hro.
Qed.

(** X6.  Either refinement, when it returns, leaves a session in which
    every region holds exactly [length] bytes, provided the lengths of the
    regions it was given are not negative. *)
Theorem NextScan_keeps_buffers_complete (p : HANDLE World) regions :
  Forall (λ r, 0 ≤ MemoryRegion.length r) regions →
  (∀ addresses regions' p',
     NextScan keep_if p regions = (Returned addresses, regions', p') →
     Forall region_stored regions')
  ∧ (∀ valid_addresses regions' valid_addresses' p',
       NextScan_restricted keep_if p regions valid_addresses
       = (Returned (), regions', valid_addresses', p') →
       Forall region_stored regions').
Proof.
  intros Hlengths. rewrite Forall_forall in Hlengths. split.
  - intros addresses regions' p' Hscan.
    apply NextScan_returned_elements in Hscan as (ros & _ & _ & _ & ->).
    apply Forall_forall.
    intros r' (j & r & ro & Hr & _ & Hkept)%elem_of_join_zip_with.
    apply elem_of_region_kept in Hkept as [-> _].
    apply refreshed_stored, Hlengths. by eapply list_elem_of_lookup_2.
  - intros valid_addresses regions' valid_addresses' p'
      Hscan%NextScan_restricted_returned.
    apply NextScan_restricted_spec_returned in Hscan as (events & _ & _ & _ & Hall).
    eapply Forall_impl; [exact Hall|].
    intros r' (r & ro & a & Hr & -> & _). by apply refreshed_stored, Hlengths.
Qed.

Lemma wrap_small z : 0 ≤ z < 2 ^ 64 → wrap z = z.
Proof. intros. unfold wrap. by apply Z.mod_small. Qed.

Lemma ContainsAddress_below_top r a :
  region_below_top r →
  ContainsAddress r a = true ↔ in_range (region_key r) a.
Proof.
  intros [[[? ?] [? ?]] ?]. unfold MemoryRegion.ContainsAddress, in_range. simpl.
  rewrite wrap_small by lia. rewrite andb_true_iff, Z.leb_le, Z.ltb_lt. done.
Qed.

(** X7.  [ContainsAddress] and the byte range.  For a region that ends
    below the top of the address space, [ContainsAddress] holds exactly of
    the addresses [base <= a < base + length].  For a region that ends
    exactly at the top, [base + length] wraps to 0 and [ContainsAddress]
    holds of no address. *)
Theorem ContainsAddress_range r a :
  region_typed r → IntPtr_range a →
  (base_address r + MemoryRegion.length r < 2 ^ 64 →
   ContainsAddress r a = true ↔ in_range (region_key r) a)
  ∧ (base_address r + MemoryRegion.length r = 2 ^ 64 →
     ContainsAddress r a = false).
Proof.
  intros Htyped [Ha _]. split.
  - intros Htop. by apply ContainsAddress_below_top.
  - intros Htop. unfold MemoryRegion.ContainsAddress, wrap. rewrite Htop.
    rewrite Z.mod_same by lia. apply andb_false_iff. right. apply Z.ltb_ge. lia.
Qed.

Lemma translated_index_slot r i :
  region_below_top r →
  0 ≤ i < MemoryRegion.length r / sizeof →
  translated_index (T := T) r (base_address r + i * sizeof) = i.
Proof.
  intros [[[? ?] [? ?]] ?] Hi. pose proof (sizeof_pos (T := T)).
  destruct (slot_offset_bound (T := T) (MemoryRegion.length r) i) as [? ?]; [lia|done|].
  unfold translated_index.
  replace (base_address r + i * sizeof - base_address r) with (i * sizeof) by lia.
  rewrite wrap_small by lia. apply Z.div_mul. lia.
Qed.

(** X8.  What an unrestricted refinement returns is fit for the restricted
    one.  On a session whose regions end below the top of the address
    space, every address returned lies, by [ContainsAddress], in a region
    left in the session, at the start of one of its slots, and the index
    the restricted refinement computes for it is that slot. *)
Theorem NextScan_addresses_in_kept_regions (p : HANDLE World) regions addresses
    regions' p' :
  NextScan keep_if p regions = (Returned addresses, regions', p') →
  Forall region_below_top regions →
  Forall (λ a, ∃ r', r' ∈ regions'
                     ∧ ContainsAddress r' a = true
                     ∧ 0 ≤ translated_index r' a < MemoryRegion.length r' / sizeof
                     ∧ a = base_address r' + translated_index r' a * sizeof)
    addresses.
Proof.
  intros Hscan Hbelow. rewrite Forall_forall in Hbelow.
  apply NextScan_returned_elements in Hscan as (ros & _ & _ & -> & ->).
  apply Forall_forall.
  intros a (j & r & ro & Hr & Hro & Ha)%elem_of_join_zip_with.
  assert (r ∈ regions) as Hin by by eapply list_elem_of_lookup_2.
  pose proof (Hbelow _ Hin) as Hr_below.
  assert (region_in_address_space r) as Hspace
    by (destruct Hr_below as [? ?]; split; [done|lia]).
  exists (refreshed r ro). split.
  { apply elem_of_join_zip_with. exists j, r, ro. split; [done|]. split; [done|].
    apply elem_of_region_kept. split; [done|]. by exists a. }
  apply elem_of_region_hits in Ha as (i & Hi & _ & ->).
  destruct (slot_address_exact r i Hspace Hi) as [-> Hrange].
  assert (region_below_top (refreshed r ro)) as Hrefreshed by done.
  split; [by apply ContainsAddress_below_top|].
  change (translated_index (refreshed r ro) (base_address r + i * sizeof))
    with (translated_index r (base_address r + i * sizeof)).
  rewrite translated_index_slot by done. done.
Qed.

(** *** Staying inside the buffers *)

Lemma slot_defined_in_bounds region new_data i :
  region_stored region →
  Z.of_nat (length new_data) = MemoryRegion.length region →
  0 ≤ i < MemoryRegion.length region / sizeof →
  slot_defined (T := T) (data region) new_data i = true.
Proof.
  intros [Hlen Hdata] Hnew Hi.
  destruct (slot_offset_bound (T := T) (MemoryRegion.length region) i) as [? ?];
    [done|done|].
  unfold slot_defined.
  destruct (ptr_index_defined (T := T) (data region) i) as [old ->]; [lia|lia|].
  by destruct (ptr_index_defined (T := T) new_data i) as [new ->]; [lia|lia|].
Qed.

Lemma addresses_spec_defined region new_data RA :
  region_stored region →
  Z.of_nat (length new_data) = MemoryRegion.length region →
  (∀ a, a ∈ RA → ContainsAddress region a = true →
        0 ≤ translated_index region a < MemoryRegion.length region / sizeof) →
  match RA with addr :: _ => ContainsAddress region addr = true | [] => True end →
  ∃ result, addresses_spec keep_if region new_data RA = Returned result.
Proof.
  intros Hstored Hnew.
  induction RA as [|addr RA IH]; intros Hbounds Hhead; [by eexists|].
  cbn [addresses_spec].
  rewrite slot_defined_in_bounds; [|done|done|by apply Hbounds; [left|]].
  destruct RA as [|next RA]; [by eexists|].
  destruct (ContainsAddress region next) eqn:Hnext; [|by eexists].
  destruct IH as [[kept rest] ->]; [|done|by eexists].
  intros a Ha. apply Hbounds. by right.
Qed.

Lemma NextScan_restricted_spec_defined R : ∀ RA (p : HANDLE World),
  Forall region_stored R →
  (∀ r a, r ∈ R → a ∈ RA → ContainsAddress r a = true →
          0 ≤ translated_index r a < MemoryRegion.length r / sizeof) →
  defined (NextScan_restricted_spec keep_if p R RA).1 = true.
Proof.
  induction R as [|x R IH]; intros RA p Hstored Hbounds; [by destruct RA|].
  apply Forall_cons in Hstored as [Hx Hstored].
  cbn [NextScan_restricted_spec]. destruct RA as [|addr RA]; [done|].
  destruct (ContainsAddress x addr) eqn:Hin; cbn [negb].
  - destruct (ReadRegionData p (new_region_for x)) as [[o new_region] p1] eqn:Hread.
    apply ReadRegionData_inv in Hread as (ro & _ & _ & Hdata & _ & ->).
    destruct (hard_error ro); [done|].
    destruct (addresses_spec_defined x (data new_region) (addr :: RA))
      as [[found rest] Hrun]; [done| | |done|].
    { destruct Hx as [? _]. rewrite Hdata, read_buffer_length. lia. }
    { intros a Ha. apply Hbounds; [by left|done]. }
    rewrite Hrun.
    apply addresses_spec_returned in Hrun as (run & Hsplit & _).
    assert (defined (NextScan_restricted_spec keep_if p1 R rest).1 = true) as Hrest.
    { apply IH; [done|]. intros r a Hr Ha. apply Hbounds; [by right|].
      rewrite Hsplit. apply elem_of_app. by right. }
    by destruct (NextScan_restricted_spec keep_if p1 R rest)
      as [[[kept addresses]|e|] p2].
  - apply IH; [done|]. intros r a Hr. apply Hbounds. by right.
Qed.

(** X9.  On a session whose regions hold [length] bytes each, an
    unrestricted refinement compares no slot outside a buffer: it returns
    or throws. *)
Theorem NextScan_in_bounds (p : HANDLE World) regions :
  Forall region_stored regions →
  defined (NextScan keep_if p regions).1.1 = true.
Proof.
  intros Hstored. pose proof (NextScan_defined keep_if p regions Hstored) as Hdefined.
  by destruct (NextScan keep_if p regions).1.1.
Qed.

(** X10.  On a session whose regions hold [length] bytes each, a
    restricted refinement compares no slot outside a buffer, provided every
    candidate a region contains lies in one of the region's whole slots
    ([translated_index < length / sizeof(T)]): it returns or throws. *)
Theorem NextScan_restricted_in_bounds (p : HANDLE World) regions valid_addresses :
  Forall region_stored regions →
  (∀ r a, r ∈ regions → a ∈ valid_addresses → ContainsAddress r a = true →
          0 ≤ translated_index r a < MemoryRegion.length r / sizeof) →
  defined (NextScan_restricted keep_if p regions valid_addresses).1.1.1 = true.
Proof.
  intros Hstored Hbounds.
  pose proof (NextScan_restricted_spec_defined regions valid_addresses p Hstored Hbounds)
    as Hdefined.
  pose proof (NextScan_restricted_refines keep_if p regions valid_addresses) as Href.
  destruct (NextScan_restricted_spec keep_if p regions valid_addresses)
    as [[[kept addresses]|e|] p'].
  - by rewrite Href.
  - by destruct Href as (regions' & valid_addresses' & ->).
  - done.
Qed.

Lemma ptr_index_outside (buf : list char) i :
  0 ≤ i → Z.of_nat (length buf) < i * sizeof + sizeof →
  ptr_index (T := T) buf i = None.
Proof.
  intros Hi Hfit. pose proof (sizeof_pos (T := T)). unfold ptr_index.
  destruct (decide _) as [Hlen|]; [|done].
  rewrite length_take, length_drop in Hlen. lia.
Qed.

(** X11.  The restricted refinement does not check the slot index against
    the number of slots.  A candidate that a region contains but that lies
    past the region's last whole slot (possible only when [length] is not a
    multiple of [sizeof(T)]) makes it read the stored buffer out of
    bounds. *)
Theorem NextScan_restricted_reads_past_last_slot (p : HANDLE World) r a :
  region_stored r →
  ContainsAddress r a = true →
  MemoryRegion.length r / sizeof ≤ translated_index r a →
  hard_error
    (ReadProcessMemory (target p) (base_address r) (MemoryRegion.length r)).1 = false →
  (NextScan_restricted keep_if p [r] [a]).1.1.1 = Undefined.
Proof.
  intros [Hlen Hdata] Hin Hpast Hread. pose proof (sizeof_pos (T := T)) as Hpos.
  unfold NextScan_restricted.
  cbn [length NextScan_merge lookup list_lookup]. rewrite Hin. cbn [negb].
  unfold ReadRegionData. cbn [new_region_for MemoryRegion.base_address MemoryRegion.length].
  destruct (ReadProcessMemory _ _ _) as [ro w]. simpl in Hread. rewrite Hread.
  cbn [NextScan_addresses cur_valid_addresses cur_a lookup list_lookup Nat.sub].
  fold (translated_index r a).
  rewrite ptr_index_outside; [done| |].
  - unfold translated_index. apply Z.div_pos; [|done]. unfold wrap. apply Z.mod_pos_bound. lia.
  - pose proof (Z.mul_succ_div_gt (MemoryRegion.length r) sizeof Hpos). nia.
Qed.

(** *** What the restricted refinement keeps *)

(** The candidates a region is asked about are the longest run of leading
    candidates it contains; those kept are the ones of the run on which the
    predicate is true. *)
Lemma addresses_spec_exact region new_data RA : ∀ kept rest,
  addresses_spec keep_if region new_data RA = Returned (kept, rest) →
  ∃ run,
    RA = run ++ rest
    ∧ kept = filter (λ a, slot_matches keep_if (data region) new_data
                            (translated_index region a) = true) run
    ∧ Forall (λ a, ContainsAddress region a = true) (tail run)
    ∧ match rest with
      | next :: _ => ContainsAddress region next = false ∧ run ≠ []
      | [] => True
      end.
Proof.
  induction RA as [|addr RA IH]; intros kept rest.
  - intros [= <- <-]. by exists [].
  - cbn [addresses_spec].
    destruct (slot_defined _ _ _); [|done].
    assert (∀ kept1 run,
              (if slot_matches keep_if (data region) new_data (translated_index region addr)
               then addr :: kept1 else kept1)
              = filter (λ a, slot_matches keep_if (data region) new_data
                               (translated_index region a) = true) (addr :: run)
              ↔ kept1 = filter (λ a, slot_matches keep_if (data region) new_data
                                      (translated_index region a) = true) run)
      as Hfilter.
    { intros kept1 run. rewrite filter_cons.
      destruct (decide _) as [Hkeep|Hkeep].
      - rewrite Hkeep. split; [by intros [= ->]|by intros ->].
      - apply not_true_is_false in Hkeep. by rewrite Hkeep. }
    destruct RA as [|next RA].
    { intros [= <- <-]. exists [addr]. split; [done|].
      split; [by apply (Hfilter [] [])|]. by split. }
    destruct (ContainsAddress region next) eqn:Hnext.
    + destruct (addresses_spec keep_if region new_data (next :: RA))
        as [[kept1 rest1]|e|]; [|done..].
      intros [= <- <-].
      destruct (IH _ _ eq_refl) as (run & Hrun & Hkept & Htail & Hrest).
      exists (addr :: run). rewrite Hrun. split; [done|].
      split; [by apply Hfilter|]. split.
      * destruct run as [|a run]; [done|].
        simpl in Hrun. injection Hrun as <- _. by constructor.
      * destruct rest1; [done|]. by destruct Hrest.
    + intros [= <- <-]. exists [addr]. split; [done|].
      split; [by apply (Hfilter [] [])|]. by repeat split.
Qed.

Lemma session_head_before x R r :
  SessionOrdered (x :: R) → r ∈ R →
  base_address x < base_address r
  ∧ ∀ a, in_range (region_key x) a → in_range (region_key r) a → False.
Proof.
  unfold SessionOrdered.
  rewrite fmap_cons, StronglySorted_cons, Forall_fmap, Forall_forall.
  intros [Hbefore _] Hr. destruct (Hbefore _ Hr) as [Hlt Hdisjoint].
  split; [done|]. intros a ? ?. by apply (Hdisjoint a).
Qed.

Lemma session_tail x R : SessionOrdered (x :: R) → SessionOrdered R.
Proof.
  unfold SessionOrdered. rewrite fmap_cons, StronglySorted_cons. by intros [_ ?].
Qed.

(** Candidates that follow, in ascending order, a candidate lying in a
    later region cannot lie in the region at the head of the session. *)
Lemma candidates_past_head x R addr RA :
  SessionOrdered (x :: R) →
  CandidatesOrdered (addr :: RA) →
  CandidatesInSession (x :: R) (addr :: RA) →
  ¬ in_range (region_key x) addr →
  Forall (λ a, ¬ in_range (region_key x) a) (addr :: RA)
  ∧ CandidatesInSession R (addr :: RA).
Proof.
  intros Hsession Hsorted Hin Hout.
  assert (Forall (λ a, ¬ in_range (region_key x) a) (addr :: RA)) as Hnone.
  { constructor; [done|].
    apply StronglySorted_cons in Hsorted as [Hafter _].
    apply Forall_cons in Hin as [(r & Hr & Haddr) _].
    apply elem_of_cons in Hr as [->|Hr]; [done|].
    destruct (session_head_before _ _ _ Hsession Hr) as [Hlt _].
    rewrite Forall_forall in Hafter. apply Forall_forall. intros c Hc Hcx.
    specialize (Hafter _ Hc). apply Hout.
    unfold in_range in *. simpl in *. lia. }
  split; [done|].
  unfold CandidatesInSession in *. rewrite Forall_forall in Hin, Hnone.
  apply Forall_forall. intros a Ha.
  destruct (Hin _ Ha) as (r & [->|Hr]%elem_of_cons & Hrange);
    [by destruct (Hnone _ Ha)|by exists r].
Qed.

Lemma read_event_inj r1 ro1 r2 ro2 :
  read_event r1 ro1 = read_event r2 ro2 →
  base_address r1 = base_address r2 ∧ ro1 = ro2.
Proof. by intros [= ? ? ?]. Qed.

(** What a restricted refinement that returns keeps, on a session and a
    candidate set that are ordered, every candidate lying in a region of the
    session: the reads are reads of regions of the session, the candidates
    kept are those that pass, the regions kept are those that were read and
    hold a candidate that passes. *)
Lemma NextScan_restricted_spec_exact R : ∀ RA (p : HANDLE World) kept addresses p',
  NextScan_restricted_spec keep_if p R RA = (Returned (kept, addresses), p') →
  SessionOrdered R → Forall region_below_top R →
  CandidatesOrdered RA → CandidatesInSession R RA →
  ∃ events,
    trace p' = trace p ++ events
    ∧ Forall (λ e, ∃ r ro, r ∈ R ∧ e = read_event r ro) events
    ∧ (∀ a, a ∈ addresses ↔ a ∈ RA ∧ candidate_passes keep_if R events a)
    ∧ (∀ r', r' ∈ kept
             ↔ ∃ r ro a,
                 r ∈ R ∧ r' = refreshed r ro ∧ read_event r ro ∈ events
                 ∧ a ∈ RA ∧ in_range (region_key r) a
                 ∧ slot_matches keep_if (data r)
                     (read_buffer (MemoryRegion.length r) ro)
                     (translated_index r a) = true).
Proof.
  induction R as [|x R IH]; intros RA p kept addresses p' Hspec Hsession Hbelow
    Hsorted Hin.
  { assert (NextScan_restricted_spec keep_if p [] RA = (Returned ([], []), p)) as Hnil
      by by destruct RA.
    rewrite Hnil in Hspec. injection Hspec as <- <- <-.
    exists []. rewrite app_nil_r. split; [done|]. split; [done|]. split.
    - intros a. split; [by intros ?%elem_of_nil|].
      by intros [_ (r & ro & ?%elem_of_nil & _)].
    - intros r'. split; [by intros ?%elem_of_nil|].
      by intros (r & ro & a & ?%elem_of_nil & _). }
  cbn [NextScan_restricted_spec] in Hspec. destruct RA as [|addr RA].
  { injection Hspec as <- <- <-.
    exists []. rewrite app_nil_r. split; [done|]. split; [done|]. split.
    - intros a. split; [by intros ?%elem_of_nil|]. by intros [?%elem_of_nil _].
    - intros r'. split; [by intros ?%elem_of_nil|].
      by intros (r & ro & a & _ & _ & ?%elem_of_nil & _). }
  pose proof (session_tail _ _ Hsession) as Hsession_tail.
  apply Forall_cons in Hbelow as [Hx Hbelow].
  destruct (ContainsAddress x addr) eqn:Hcontains; cbn [negb] in Hspec.
  2:{ (* the region holds no candidate and is skipped *)
    destruct (candidates_past_head x R addr RA) as [Hnone Hin_tail]; [done..| |].
    { rewrite <- ContainsAddress_below_top by done. by rewrite Hcontains. }
    rewrite Forall_forall in Hnone.
    destruct (IH _ _ _ _ _ Hspec) as (events & Htrace & Hevents & Hkept & Hregions);
      [done..|].
    exists events. split; [done|]. split.
    { eapply Forall_impl; [exact Hevents|].
      intros e (r & ro & ? & ?). exists r, ro. split; [by right|done]. }
    split.
    - intros a. rewrite Hkept. split.
      + intros [Ha (r & ro & ? & ?)]. split; [done|]. exists r, ro. split; [by right|done].
      + intros [Ha (r & ro & [->|Hr]%elem_of_cons & Hrange & ?)];
          [by destruct (Hnone _ Ha)|].
        split; [done|]. by exists r, ro.
    - intros r'. rewrite Hregions. split.
      + intros (r & ro & a & ? & ?). exists r, ro, a. split; [by right|done].
      + intros (r & ro & a & [->|Hr]%elem_of_cons & ? & ? & Ha & Hrange & ?);
          [by destruct (Hnone _ Ha)|].
        by exists r, ro, a. }
  (* the region holds the first candidate and is read *)
  destruct (ReadRegionData p (new_region_for x)) as [[o new_region] p1] eqn:Hread.
  apply ReadRegionData_inv in Hread as (ro & Hbase & Hlen & Hdata & Htrace & ->).
  destruct (hard_error ro); [done|].
  destruct (addresses_spec keep_if x (data new_region) (addr :: RA))
    as [[found rest]|e|] eqn:Hrun; [|done..].
  destruct (NextScan_restricted_spec keep_if p1 R rest)
    as [[[kept1 addresses1]|e|] p2] eqn:Hrest; [|done..].
  injection Hspec as <- <- <-.
  assert (new_region = refreshed x ro) as -> by by apply refreshed_eq.
  clear Hbase Hlen Hdata. cbn [refreshed data] in Hrun.
  apply addresses_spec_exact in Hrun as (run & Hsplit & Hfound & Htail & Hnext).
  assert (in_range (region_key x) addr) as Haddr
    by by apply ContainsAddress_below_top.
  assert (Forall (λ a, in_range (region_key x) a) run) as Hrun_in.
  { destruct run as [|a0 run]; [done|].
    simpl in Hsplit. injection Hsplit as <- _.
    constructor; [done|]. eapply Forall_impl; [exact Htail|].
    intros a. by apply ContainsAddress_below_top. }
  assert (run ≠ []) as Hrun_ne.
  { destruct rest as [|next rest]; [|by destruct Hnext].
    rewrite app_nil_r in Hsplit. by rewrite <- Hsplit. }
  assert (Forall (λ a, ¬ in_range (region_key x) a) rest) as Hrest_out.
  { destruct rest as [|next rest]; [done|]. destruct Hnext as [Hnext _].
    assert (¬ in_range (region_key x) next) as Hout.
    { rewrite <- ContainsAddress_below_top by done. by rewrite Hnext. }
    constructor; [done|].
    unfold CandidatesOrdered in Hsorted. rewrite Hsplit in Hsorted.
    apply StronglySorted_app in Hsorted as (Hcross & _ & Hsorted_rest).
    apply StronglySorted_cons in Hsorted_rest as [Hafter _].
    destruct run as [|a0 run]; [done|].
    apply Forall_cons in Hrun_in as [Ha0 _].
    specialize (Hcross a0 next (list_elem_of_here _ _) (list_elem_of_here _ _)).
    rewrite Forall_forall in Hafter. apply Forall_forall. intros c Hc Hcx.
    specialize (Hafter _ Hc). apply Hout.
    unfold in_range in *. simpl in *. lia. }
  assert (CandidatesOrdered rest) as Hsorted_rest.
  { unfold CandidatesOrdered in *. rewrite Hsplit in Hsorted.
    by apply StronglySorted_app_1_r in Hsorted. }
  assert (CandidatesInSession R rest) as Hin_rest.
  { unfold CandidatesInSession in *. rewrite Hsplit in Hin.
    apply Forall_app in Hin as [_ Hin].
    rewrite Forall_forall in Hin. rewrite Forall_forall in Hrest_out.
    apply Forall_forall. intros a Ha.
    destruct (Hin _ Ha) as (r & [->|Hr]%elem_of_cons & Hrange);
      [by destruct (Hrest_out _ Ha)|by exists r]. }
  destruct (IH _ _ _ _ _ Hrest) as (events & Htrace2 & Hevents & Hkept & Hregions);
    [done..|].
  rewrite Forall_forall in Hrun_in. rewrite Forall_forall in Hrest_out.
  rewrite Forall_forall in Hevents.
  assert (∀ ro', read_event x ro' ∈ read_event x ro :: events → ro' = ro) as Hread_x.
  { intros ro' [Heq|He]%elem_of_cons; [by apply read_event_inj in Heq as [_ ?]|].
    destruct (Hevents _ He) as (r2 & ro2 & Hr2 & [Heq _]%read_event_inj).
    destruct (session_head_before _ _ _ Hsession Hr2) as [Hlt _]. lia. }
  assert (∀ r ro', r ∈ R → read_event r ro' ∈ read_event x ro :: events →
                   read_event r ro' ∈ events) as Hread_tail.
  { intros r ro' Hr [[Heq _]%read_event_inj|He]%elem_of_cons; [|done].
    destruct (session_head_before _ _ _ Hsession Hr) as [Hlt _]. lia. }
  assert (∀ a, a ∈ found
               ↔ a ∈ run
                 ∧ slot_matches keep_if (data x) (read_buffer (MemoryRegion.length x) ro)
                     (translated_index x a) = true) as Hfound_iff.
  { intros a. rewrite Hfound, list_elem_of_filter. tauto. }
  assert (∀ a r, a ∈ addr :: RA → r ∈ R → in_range (region_key r) a → a ∈ rest)
    as Hlater.
  { intros a r Ha Hr Hrange. rewrite Hsplit in Ha.
    apply elem_of_app in Ha as [Ha|Ha]; [|done].
    destruct (session_head_before _ _ _ Hsession Hr) as [_ Hdisjoint].
    destruct (Hdisjoint a); [by apply Hrun_in|done]. }
  assert (∀ a, a ∈ addr :: RA → in_range (region_key x) a → a ∈ run) as Hhere.
  { intros a Ha Hrange. rewrite Hsplit in Ha.
    apply elem_of_app in Ha as [Ha|Ha]; [done|]. by destruct (Hrest_out _ Ha). }
  exists (read_event x ro :: events).
  split; [by rewrite Htrace2, Htrace, <- app_assoc|]. split.
  { apply Forall_forall. intros e [->|He]%elem_of_cons.
    - exists x, ro. split; [by left|done].
    - destruct (Hevents _ He) as (r & ro' & ? & ?). exists r, ro'. split; [by right|done]. }
  split.
  - intros a. rewrite elem_of_app, Hfound_iff, Hkept. split.
    + intros [[Ha Hkeep]|[Ha (r & ro' & Hr & Hrange & He & Hkeep)]].
      * split; [rewrite Hsplit; apply elem_of_app; by left|].
        exists x, ro. split; [by left|]. split; [by apply Hrun_in|].
        split; [by left|done].
      * split; [rewrite Hsplit; apply elem_of_app; by right|].
        exists r, ro'. split; [by right|]. split; [done|]. split; [by right|done].
    + intros [Ha (r & ro' & [->|Hr]%elem_of_cons & Hrange & He & Hkeep)].
      * left. apply Hread_x in He as ->. split; [by apply Hhere|done].
      * right. split; [by eapply Hlater|]. exists r, ro'. eauto.
  - intros r'. split.
    + intros Hr'.
      assert (r' ∈ kept1 ∨ (r' = refreshed x ro ∧ ∃ a, a ∈ found)) as [Hk|[-> [a Ha]]].
      { destruct found as [|a found]; simpl in Hr'; [by left|].
        apply elem_of_cons in Hr' as [->|Hr']; [|by left].
        right. split; [done|]. exists a. by left. }
      * apply Hregions in Hk as (r & ro' & a & Hr & -> & He & Ha & Hrange & Hkeep).
        exists r, ro', a. split; [by right|]. split; [done|]. split; [by right|].
        split; [|done]. rewrite Hsplit. apply elem_of_app. by right.
      * apply Hfound_iff in Ha as [Ha Hkeep].
        exists x, ro, a. split; [by left|]. split; [done|]. split; [by left|].
        split; [rewrite Hsplit; apply elem_of_app; by left|]. split; [by apply Hrun_in|done].
    + intros (r & ro' & a & [->|Hr]%elem_of_cons & -> & He & Ha & Hrange & Hkeep).
      * apply Hread_x in He as ->.
        assert (a ∈ found) as Hfound_a by (apply Hfound_iff; split; [by apply Hhere|done]).
        destruct found as [|a1 found]; [by apply elem_of_nil in Hfound_a|].
        simpl. by left.
      * assert (refreshed r ro' ∈ kept1) as Hk.
        { apply Hregions. exists r, ro', a. split; [done|]. split; [done|].
          split; [by apply Hread_tail|]. split; [by eapply Hlater|done]. }
        destruct (is_nil found); [done|by right].
Qed.



(** The reads of a restricted refinement, whatever its outcome: at most
    one per region, in the order of the session, and only of regions that
    contain a candidate. *)
Lemma NextScan_restricted_spec_reads R : ∀ RA (p : HANDLE World),
  ∃ visited ros,
    visited `sublist_of` R
    ∧ length ros = length visited
    ∧ trace (NextScan_restricted_spec keep_if p R RA).2
      = trace p ++ zip_with read_event visited ros
    ∧ Forall (λ r, ∃ a, a ∈ RA ∧ ContainsAddress r a = true) visited.
Proof.
  induction R as [|x R IH]; intros RA p.
  { exists [], []. rewrite app_nil_r. split; [constructor|]. by destruct RA. }
  cbn [NextScan_restricted_spec]. destruct RA as [|addr RA].
  { exists [], []. rewrite app_nil_r. split; [apply sublist_nil_l|]. done. }
  destruct (ContainsAddress x addr) eqn:Hin; cbn [negb].
  2:{ destruct (IH (addr :: RA) p) as (visited & ros & Hsub & Hlength & Htrace & Hall).
      exists visited, ros. split; [by apply sublist_cons|]. done. }
  destruct (ReadRegionData p (new_region_for x)) as [[o new_region] p1] eqn:Hread.
  apply ReadRegionData_inv in Hread as (ro & _ & _ & _ & Htrace & ->).
  assert (∃ visited ros,
            visited `sublist_of` x :: R ∧ length ros = length visited
            ∧ trace p1 = trace p ++ zip_with read_event visited ros
            ∧ Forall (λ r, ∃ a, a ∈ addr :: RA ∧ ContainsAddress r a = true) visited)
    as Hstop.
  { exists [x], [ro]. split; [apply sublist_skip, sublist_nil_l|].
    split; [done|]. split; [done|]. constructor; [|done]. exists addr. split; [by left|done]. }
  destruct (hard_error ro); [done|].
  destruct (addresses_spec keep_if x (data new_region) (addr :: RA))
    as [[found rest]|e|] eqn:Hrun; [|done..].
  apply addresses_spec_returned in Hrun as (run & Hsplit & _).
  destruct (IH rest p1) as (visited & ros & Hsub & Hlength & Htrace2 & Hall).
  exists (x :: visited), (ro :: ros).
  split; [by apply sublist_skip|]. split; [simpl; lia|]. split.
  - destruct (NextScan_restricted_spec keep_if p1 R rest) as [[[kept addresses]|e|] p2];
      simpl in *; by rewrite Htrace2, Htrace, <- app_assoc.
  - constructor; [exists addr; split; [by left|done]|].
    eapply Forall_impl; [exact Hall|]. intros r (a & Ha & ?). exists a.
    split; [|done]. rewrite Hsplit. apply elem_of_app. by right.
Qed.

(** X14.  A restricted refinement, whatever its outcome, reads only regions
    of the session that contain a candidate, each at most once and in the
    order of the session. *)
Theorem NextScan_restricted_reads_only_referenced (p : HANDLE World) regions
    valid_addresses :
  ∃ visited ros,
    visited `sublist_of` regions
    ∧ length ros = length visited
    ∧ new_events p (NextScan_restricted keep_if p regions valid_addresses).2
      = zip_with read_event visited ros
    ∧ Forall (λ r, ∃ a, a ∈ valid_addresses ∧ ContainsAddress r a = true) visited.
Proof.
  destruct (NextScan_restricted_spec_reads regions valid_addresses p)
    as (visited & ros & Hsub & Hlength & Htrace & Hall).
  exists visited, ros. split; [done|]. split; [done|]. split; [|done].
  apply new_events_app.
  pose proof (NextScan_restricted_refines keep_if p regions valid_addresses) as Href.
  destruct (NextScan_restricted_spec keep_if p regions valid_addresses)
    as [[[kept addresses]|e|] p'].
  - by rewrite Href.
  - by destruct Href as (regions' & valid_addresses' & ->).
  - by destruct Href as (regions' & valid_addresses' & ->).
Qed.

(** *** Stability of the compaction *)

Lemma kept_by_cons {A} (b : bool) outcomes (x : A) l :
  kept_by (b :: outcomes) (x :: l)
  = if b then x :: kept_by outcomes l else kept_by outcomes l.
Proof.
  unfold kept_by. cbn [zip zip_with]. rewrite filter_cons. cbn [snd].
  destruct b; [by rewrite decide_True|by rewrite decide_False].
Qed.

Lemma kept_by_fmap {A B} (f : A → B) outcomes (l : list A) :
  kept_by outcomes (f <$> l) = f <$> kept_by outcomes l.
Proof.
  revert outcomes. induction l as [|x l IH]; intros [|b outcomes]; try done.
  rewrite fmap_cons, !kept_by_cons, IH. by destruct b.
Qed.

Lemma kept_by_sublist {A} outcomes (l : list A) : kept_by outcomes l `sublist_of` l.
Proof.
  revert outcomes. induction l as [|x l IH]; intros [|b outcomes];
    try apply sublist_nil_l.
  rewrite kept_by_cons. destruct b; [by apply sublist_skip|by apply sublist_cons].
Qed.

(** A subsequence of a sequence without duplicates that holds exactly the
    items on which [P] is true is the sequence compacted by the outcomes of
    [P]. *)
Lemma sublist_kept_by {A} (P : A → Prop) (l' l : list A) :
  l' `sublist_of` l → NoDup l → (∀ x, x ∈ l' ↔ x ∈ l ∧ P x) →
  ∃ outcomes,
    Forall2 (λ x (kept : bool), kept = true ↔ P x) l outcomes
    ∧ l' = kept_by outcomes l.
Proof.
  induction 1 as [|x l1' l1 Hsub IH|x l1' l1 Hsub IH]; intros Hnodup Hiff.
  - by exists [].
  - apply NoDup_cons in Hnodup as [Hx Hnodup].
    destruct IH as (outcomes & Hall & ->); [done| |].
    { intros y. split.
      - intros Hy. split; [by eapply elem_of_sublist|].
        apply (Hiff y). by right.
      - intros [Hy HP]. assert (y ∈ x :: l1') as Hin.
        { apply Hiff. split; [by right|done]. }
        apply elem_of_cons in Hin as [->|Hin]; done. }
    exists (true :: outcomes). rewrite kept_by_cons. split; [|done].
    constructor; [|done]. split; [|done]. intros _. apply (Hiff x). by left.
  - apply NoDup_cons in Hnodup as [Hx Hnodup].
    assert (x ∉ l1') as Hx' by (intros Hin; by eapply Hx, elem_of_sublist).
    destruct IH as (outcomes & Hall & ->); [done| |].
    { intros y. split.
      - intros Hy. split; [by eapply elem_of_sublist|].
        apply (Hiff y) in Hy as [_ HP]. done.
      - intros [Hy HP]. apply Hiff. split; [by right|done]. }
    exists (false :: outcomes). rewrite kept_by_cons. split; [|done].
    constructor; [|done]. split; [done|]. intros HP. destruct Hx'.
    apply Hiff. split; [by left|done].
Qed.

Lemma SessionOrdered_NoDup regions :
  SessionOrdered regions → NoDup (region_key <$> regions).
Proof.
  unfold SessionOrdered. generalize (region_key <$> regions). intros keys.
  induction keys as [|k keys IH]; [constructor|].
  rewrite StronglySorted_cons. intros [Hall Hsorted].
  constructor; [|by apply IH].
  intros Hin. rewrite Forall_forall in Hall. destruct (Hall _ Hin) as [Hlt _]. lia.
Qed.

Lemma region_kept_by R : ∀ ros,
  length ros = length R →
  mjoin (zip_with (region_kept keep_if) R ros)
  = (λ rr, refreshed rr.1 rr.2)
      <$> kept_by ((λ rr, negb (is_nil (region_hits keep_if rr.1 rr.2))) <$> zip R ros)
            (zip R ros).
Proof.
  induction R as [|x R IH]; intros [|ro ros] Hlen; try done.
  cbn [zip zip_with fmap list_fmap]. rewrite kept_by_cons.
  change (mjoin (region_kept keep_if x ro :: ?l))
    with (region_kept keep_if x ro ++ mjoin l).
  cbn [fst snd]. unfold region_kept at 1.
  rewrite (IH ros) by (simpl in Hlen; lia).
  by destruct (is_nil (region_hits keep_if x ro)).
Qed.

(** C9.  Compaction is stable.  After an unrestricted refinement that
    returns, the regions of the session are exactly the regions of the
    session before the call that have a slot on which the predicate was true
    against the bytes read for them, in their order before the call, each
    holding the bytes read for it.  After a restricted refinement that
    returns, regions and candidates are subsequences of those before the
    call; on an ordered session whose regions end below the top of the
    address space and an ascending candidate set that lies in the session,
    the candidates are exactly those of before on which the predicate was
    true at their slot, in their order before the call, and the regions are
    exactly those of before that hold such a candidate, in their order
    before the call, each holding the bytes read for it. *)
Theorem NextScan_compaction_stable (p : HANDLE World) regions :
  (∀ addresses regions' p',
     NextScan keep_if p regions = (Returned addresses, regions', p') →
     ∃ ros outcomes,
       new_events p p' = zip_with read_event regions ros
       ∧ Forall2 (λ rr (kept : bool),
                    kept = true
                    ↔ ∃ i, 0 ≤ i < MemoryRegion.length rr.1 / sizeof (T := T)
                           ∧ slot_matches keep_if (data rr.1)
                               (read_buffer (MemoryRegion.length rr.1) rr.2) i = true)
           (zip regions ros) outcomes
       ∧ regions' = (λ rr, refreshed rr.1 rr.2) <$> kept_by outcomes (zip regions ros))
  ∧ (∀ valid_addresses regions' valid_addresses' p',
       NextScan_restricted keep_if p regions valid_addresses
       = (Returned (), regions', valid_addresses', p') →
       (region_key <$> regions' `sublist_of` region_key <$> regions
        ∧ valid_addresses' `sublist_of` valid_addresses)
       ∧ (SessionOrdered regions → Forall region_below_top regions →
          CandidatesOrdered valid_addresses →
          CandidatesInSession regions valid_addresses →
          ∃ candidate_outcomes region_outcomes,
            Forall2 (λ a (kept : bool),
                       kept = true
                       ↔ candidate_passes keep_if regions (new_events p p') a)
              valid_addresses candidate_outcomes
            ∧ valid_addresses' = kept_by candidate_outcomes valid_addresses
            ∧ Forall2 (λ r (kept : bool),
                         kept = true
                         ↔ ∃ ro a,
                             read_event r ro ∈ new_events p p'
                             ∧ a ∈ valid_addresses ∧ in_range (region_key r) a
                             ∧ slot_matches keep_if (data r)
                                 (read_buffer (MemoryRegion.length r) ro)
                                 (translated_index r a) = true)
                regions region_outcomes
            ∧ Forall2 (λ r' r, ∃ ro, r' = refreshed r ro
                                     ∧ read_event r ro ∈ new_events p p')
                regions' (kept_by region_outcomes regions))).
Proof.
  split.
  - intros addresses regions' p' Hscan.
    apply NextScan_returned_elements in Hscan as (ros & Hlen & Hevents & _ & ->).
    exists ros, ((λ rr, negb (is_nil (region_hits keep_if rr.1 rr.2))) <$> zip regions ros).
    split; [done|]. split; [|by apply region_kept_by].
    apply Forall2_fmap_r, Forall_Forall2_diag, Forall_forall. intros [r ro] _.
    cbn [fst snd]. split.
    + intros Hkept. cbn [fst snd] in Hkept.
      destruct (region_hits keep_if r ro) as [|a hits] eqn:Hhits; [done|].
      assert (a ∈ region_hits keep_if r ro) as Ha by (rewrite Hhits; by left).
      apply elem_of_region_hits in Ha as (i & Hi & Hmatch & _). by exists i.
    + intros (i & Hi & Hmatch).
      assert (slot_address (T := T) (base_address r) i ∈ region_hits keep_if r ro) as Ha
        by (apply elem_of_region_hits; by exists i).
      cbn [fst snd].
      destruct (region_hits keep_if r ro); [by apply elem_of_nil in Ha|done].
  - intros valid_addresses regions' valid_addresses' p' Hscan%NextScan_restricted_returned.
    pose proof (NextScan_restricted_spec_returned keep_if _ _ _ _ _ _ Hscan)
      as (events0 & _ & Hsub_a & Hsub_r & _).
    split; [done|]. intros Hordered Hbelow Hsorted Hin.
    destruct (NextScan_restricted_spec_exact _ _ _ _ _ _ Hscan Hordered Hbelow
                Hsorted Hin) as (events & Htrace & _ & Hcandidates & Hregions).
    rewrite (new_events_app _ _ _ Htrace).
    destruct (sublist_kept_by (candidate_passes keep_if regions events)
                valid_addresses' valid_addresses Hsub_a (ascending_NoDup _ Hsorted)
                Hcandidates) as (candidate_outcomes & Hall_a & Heq_a).
    set (in_use := λ r : MemoryRegion,
           ∃ ro a, read_event r ro ∈ events ∧ a ∈ valid_addresses
                   ∧ in_range (region_key r) a
                   ∧ slot_matches keep_if (data r)
                       (read_buffer (MemoryRegion.length r) ro)
                       (translated_index r a) = true).
    assert (Hinj : ∀ r1 r2, r1 ∈ regions → r2 ∈ regions →
                            region_key r1 = region_key r2 → r1 = r2).
    { intros r1 r2 H1 H2 [= Hbase _].
      by eapply SessionOrdered_base_inj. }
    destruct (sublist_kept_by (λ k, ∃ r, r ∈ regions ∧ region_key r = k ∧ in_use r)
                (region_key <$> regions') (region_key <$> regions) Hsub_r
                (SessionOrdered_NoDup _ Hordered))
      as (region_outcomes & Hall_r & Heq_r).
    { intros k. rewrite !list_elem_of_fmap. split.
      - intros (r' & -> & (r & ro & a & Hr & -> & Hread & Ha & Hrange & Hmatch)%Hregions).
        split; [by exists r|]. exists r. split; [done|]. split; [done|].
        by exists ro, a.
      - intros [_ (r & Hr & <- & ro & a & Hread & Ha & Hrange & Hmatch)].
        exists (refreshed r ro). split; [done|].
        apply Hregions. by exists r, ro, a. }
    exists candidate_outcomes, region_outcomes.
    split; [done|]. split; [done|].
    apply Forall2_fmap_l in Hall_r.
    assert (Forall2 (λ r (kept : bool), kept = true ↔ in_use r) regions region_outcomes)
      as Hall_r'.
    { apply Forall2_same_length_lookup. split; [by eapply Forall2_length|].
      intros i r b Hr Hb.
      pose proof (Forall2_lookup_lr _ _ _ _ _ _ Hall_r Hr Hb) as Hiff.
      cbn beta in Hiff. etrans; [exact Hiff|]. split.
      - intros (r0 & Hr0 & Hkey & Huse).
        assert (r0 = r) as -> by (apply Hinj; [done|by eapply list_elem_of_lookup_2|done]).
        done.
      - intros Huse. exists r. split; [by eapply list_elem_of_lookup_2|done]. }
    split; [done|].
    rewrite kept_by_fmap in Heq_r.
    apply Forall2_same_length_lookup. split.
    { apply (f_equal length) in Heq_r. by rewrite !length_fmap in Heq_r. }
    intros i r' r Hr' Hr.
    assert (region_key r' = region_key r) as Hkey.
    { apply (f_equal (λ l, l !! i)) in Heq_r.
      rewrite !list_lookup_fmap, Hr', Hr in Heq_r.
      cbn [fmap option_fmap option_map] in Heq_r. congruence. }
    assert (r' ∈ regions') as Hin' by by eapply list_elem_of_lookup_2.
    apply Hregions in Hin' as (r0 & ro & a & Hr0 & -> & Hread & _).
    assert (r ∈ regions) as Hrin.
    { eapply elem_of_sublist; [by eapply list_elem_of_lookup_2|apply kept_by_sublist]. }
    assert (r0 = r) as -> by by apply Hinj.
    by exists ro.
Qed.
End Sessions.

Lemma scenario_stored : Forall region_stored [scenario_region; second_region].
Proof. repeat constructor; simpl; lia. Qed.

Lemma scenario_below_top : Forall region_below_top [scenario_region; second_region].
Proof. repeat constructor; simpl; lia. Qed.

Lemma NextScan_two_regions :
  NextScan current_is_5 (opened (steady_process slots_5_7_5_9))
    [scenario_region; second_region]
  = (Returned [4096; 4104; 8192; 8200], [scenario_region; second_region],
     (NextScan current_is_5 (opened (steady_process slots_5_7_5_9))
        [scenario_region; second_region]).2).
Proof. reflexivity. Qed.

Lemma NextScan_restricted_two_regions :
  NextScan_restricted current_is_5 (opened (steady_process slots_5_7_9_9))
    [scenario_region; second_region] [4096; 4104; 8192]
  = (Returned (),
     [refreshed scenario_region (ok_read slots_5_7_9_9);
      refreshed second_region (ok_read slots_5_7_9_9)],
     [4096; 8192],
     (NextScan_restricted current_is_5 (opened (steady_process slots_5_7_9_9))
        [scenario_region; second_region] [4096; 4104; 8192]).2).
Proof. reflexivity. Qed.



Lemma NextScan_reads_every_region_witness :
  Forall2 (λ r e, ∃ ro, e = read_event r ro) [scenario_region; second_region]
    (new_events (opened (steady_process slots_5_7_5_9))
       (NextScan current_is_5 (opened (steady_process slots_5_7_5_9))
          [scenario_region; second_region]).2)
  ∧ Forall (λ r', ∃ r ro,
              r ∈ [scenario_region; second_region]
              ∧ read_event r ro
                ∈ new_events (opened (steady_process slots_5_7_5_9))
                    (NextScan current_is_5 (opened (steady_process slots_5_7_5_9))
                       [scenario_region; second_region]).2
              ∧ r' = refreshed r ro)
      [scenario_region; second_region].
Proof.
  exact (NextScan_reads_every_region current_is_5 _ _ _ _ _ NextScan_two_regions).
Defined.

Lemma NextScan_keeps_buffers_complete_witness :
  Forall region_stored [scenario_region; second_region]
  ∧ Forall region_stored
      [refreshed scenario_region (ok_read slots_5_7_9_9);
       refreshed second_region (ok_read slots_5_7_9_9)].
Proof.
  assert (Forall (λ r, 0 ≤ MemoryRegion.length r) [scenario_region; second_region])
    as Hlengths by (repeat constructor; simpl; lia).
  split.
  - exact (proj1 (NextScan_keeps_buffers_complete current_is_5
                    (opened (steady_process slots_5_7_5_9)) _ Hlengths)
             _ _ _ NextScan_two_regions).
  - exact (proj2 (NextScan_keeps_buffers_complete current_is_5
                    (opened (steady_process slots_5_7_9_9)) _ Hlengths)
             _ _ _ _ NextScan_restricted_two_regions).
Defined.

Lemma ContainsAddress_range_witness :
  (ContainsAddress scenario_region 4100 = true
   ↔ in_range (region_key scenario_region) 4100)
  ∧ ContainsAddress top_region (2 ^ 64 - 8) = false.
Proof.
  split.
  - apply (ContainsAddress_range scenario_region 4100); simpl;
      repeat split; simpl; lia.
  - apply (ContainsAddress_range top_region (2 ^ 64 - 8)); simpl;
      repeat split; simpl; lia.
Defined.

Lemma NextScan_addresses_in_kept_regions_witness :
  Forall (λ a, ∃ r', r' ∈ [scenario_region; second_region]
                     ∧ ContainsAddress r' a = true
                     ∧ 0 ≤ translated_index (T := Z) r' a < MemoryRegion.length r' / 4
                     ∧ a = base_address r' + translated_index (T := Z) r' a * 4)
    [4096; 4104; 8192; 8200].
Proof.
  exact (NextScan_addresses_in_kept_regions current_is_5 _ _ _ _ _
           NextScan_two_regions scenario_below_top).
Defined.

Lemma NextScan_in_bounds_witness :
  defined
    (NextScan current_is_5 (opened (steady_process slots_5_7_5_9))
       [scenario_region; second_region]).1.1 = true.
Proof.
  exact (NextScan_in_bounds current_is_5 (opened (steady_process slots_5_7_5_9)) _
           scenario_stored).
Defined.

Lemma NextScan_restricted_in_bounds_witness :
  defined
    (NextScan_restricted current_is_5 (opened (steady_process slots_5_7_9_9))
       [scenario_region; second_region] [4096; 4104; 8192]).1.1.1 = true.
Proof.
  apply (NextScan_restricted_in_bounds current_is_5
           (opened (steady_process slots_5_7_9_9))
           [scenario_region; second_region] [4096; 4104; 8192] scenario_stored).
  intros r a Hr Ha Hcontains.
  repeat (apply elem_of_cons in Hr as [->|Hr]);
    [| |by apply elem_of_nil in Hr];
    repeat (apply elem_of_cons in Ha as [->|Ha]);
    try (by apply elem_of_nil in Ha);
    try discriminate Hcontains;
    split; by vm_compute.
Defined.

Lemma NextScan_restricted_reads_past_last_slot_witness :
  (NextScan_restricted current_is_5 (opened (steady_process slots_5_7_5_9))
     [ragged_region] [4100]).1.1.1 = Undefined.
Proof.
  apply (NextScan_restricted_reads_past_last_slot current_is_5
           (opened (steady_process slots_5_7_5_9)) ragged_region 4100).
  - split; simpl; lia.
  - reflexivity.
  - by vm_compute.
  - reflexivity.
Defined.



Lemma NextScan_throws_only_ReadFailure_witness :
  error_kind (Cannot_read_process_memory 5 4096) = ReadFailure.
Proof.
  apply (proj1 (NextScan_throws_only_ReadFailure current_is_5 (opened denied_process)
                  [scenario_region] [] (Cannot_read_process_memory 5 4096))).
  reflexivity.
Defined.

Lemma NextScan_changed_process :
  NextScan current_is_5 (opened changed_process) [scenario_region; second_region]
  = (Returned [8192; 8200], [refreshed second_region (ok_read slots_5_7_5_9)],
     (NextScan current_is_5 (opened changed_process)
        [scenario_region; second_region]).2).
Proof. reflexivity. Qed.

Lemma NextScan_restricted_two_candidates :
  NextScan_restricted current_is_5 (opened (steady_process slots_5_7_9_9))
    [scenario_region; second_region] [4096; 4104]
  = (Returned (), [refreshed scenario_region (ok_read slots_5_7_9_9)], [4096],
     (NextScan_restricted current_is_5 (opened (steady_process slots_5_7_9_9))
        [scenario_region; second_region] [4096; 4104]).2).
Proof. reflexivity. Qed.

Lemma NextScan_compaction_stable_witness :
  (∃ ros outcomes,
     new_events (opened changed_process)
       (NextScan current_is_5 (opened changed_process)
          [scenario_region; second_region]).2
     = zip_with read_event [scenario_region; second_region] ros
     ∧ Forall2 (λ rr (kept : bool),
                  kept = true
                  ↔ ∃ i, 0 ≤ i < MemoryRegion.length rr.1 / 4
                         ∧ slot_matches current_is_5 (data rr.1)
                             (read_buffer (MemoryRegion.length rr.1) rr.2) i = true)
         (zip [scenario_region; second_region] ros) outcomes
     ∧ [refreshed second_region (ok_read slots_5_7_5_9)]
       = (λ rr, refreshed rr.1 rr.2)
           <$> kept_by outcomes (zip [scenario_region; second_region] ros))
  ∧ (∃ candidate_outcomes region_outcomes,
       Forall2 (λ a (kept : bool),
                  kept = true
                  ↔ candidate_passes current_is_5 [scenario_region; second_region]
                      (new_events (opened (steady_process slots_5_7_9_9))
                         (NextScan_restricted current_is_5
                            (opened (steady_process slots_5_7_9_9))
                            [scenario_region; second_region] [4096; 4104]).2) a)
         [4096; 4104] candidate_outcomes
       ∧ [4096] = kept_by candidate_outcomes [4096; 4104]
       ∧ Forall2 (λ r (kept : bool),
                    kept = true
                    ↔ ∃ ro a,
                        read_event r ro
                        ∈ new_events (opened (steady_process slots_5_7_9_9))
                            (NextScan_restricted current_is_5
                               (opened (steady_process slots_5_7_9_9))
                               [scenario_region; second_region] [4096; 4104]).2
                        ∧ a ∈ [4096; 4104] ∧ in_range (region_key r) a
                        ∧ slot_matches current_is_5 (data r)
                            (read_buffer (MemoryRegion.length r) ro)
                            (translated_index r a) = true)
           [scenario_region; second_region] region_outcomes
       ∧ Forall2 (λ r' r, ∃ ro, r' = refreshed r ro
                                ∧ read_event r ro
                                  ∈ new_events (opened (steady_process slots_5_7_9_9))
                                      (NextScan_restricted current_is_5
                                         (opened (steady_process slots_5_7_9_9))
                                         [scenario_region; second_region]
                                         [4096; 4104]).2)
           [refreshed scenario_region (ok_read slots_5_7_9_9)]
           (kept_by region_outcomes [scenario_region; second_region])).
Proof.
  split.
  - exact (proj1 (NextScan_compaction_stable current_is_5 (opened changed_process)
                    [scenario_region; second_region])
             _ _ _ NextScan_changed_process).
  - apply (proj2 (proj2 (NextScan_compaction_stable current_is_5
                           (opened (steady_process slots_5_7_9_9))
                           [scenario_region; second_region])
                    _ _ _ _ NextScan_restricted_two_candidates)).
    + exact SessionOrdered_two.
    + repeat constructor; simpl; lia.
    + repeat constructor; lia.
    + repeat constructor.
      * exists scenario_region. split; [by left|]. split; simpl; lia.
      * exists scenario_region. split; [by left|]. split; simpl; lia.
Defined.

(** ** The text of an exception *)

Lemma hex_digit_lookup_value (d : nat) :
  (d < 16)%nat → hex_digit_value (char_at hex_digit_lookup d) = Some (Z.of_nat d).
Proof.
  intros Hd. do 16 (destruct d as [|d]; [reflexivity|]). lia.
Qed.

Lemma hex_text_length n x : length (hex_text n x) = n.
Proof.
  revert x. induction n as [|n IH]; intros x; simpl; [done|].
  rewrite length_app, IH. simpl. lia.
Qed.

Lemma Hex_digits_spec n x buf :
  (n ≤ length buf)%nat → Hex_digits n x buf = hex_text n x ++ drop n buf.
Proof.
  revert x buf. induction n as [|n IH]; intros x buf Hn; simpl.
  - by rewrite drop_0.
  - rewrite IH by (rewrite length_insert; lia).
    rewrite <- app_assoc. f_equal.
    rewrite insert_take_drop by lia.
    rewrite drop_app_length' by (rewrite length_take; lia). done.
Qed.

Lemma hex_value_from_app acc s c d :
  hex_digit_value c = Some d →
  hex_value_from acc (s ++ [c])
  = match hex_value_from acc s with Some v => Some (16 * v + d) | None => None end.
Proof.
  intros Hc. revert acc. induction s as [|b s IH]; intros acc; simpl.
  - by rewrite Hc.
  - destruct (hex_digit_value b); [apply IH|done].
Qed.

Lemma hex_value_from_text n x acc :
  0 ≤ x → hex_value_from acc (hex_text n x) = Some (acc * 16 ^ Z.of_nat n + x mod 16 ^ Z.of_nat n).
Proof.
  revert x acc. induction n as [|n IH]; intros x acc Hx.
  - simpl. f_equal. rewrite Z.mod_1_r. lia.
  - cbn [hex_text].
    assert (Hland : Z.land x 15 = x mod 16) by (apply (Z.land_ones x 4); lia).
    assert (Hshift : Z.shiftr x 4 = x / 16) by (apply (Z.shiftr_div_pow2 x 4); lia).
    assert (Hd : (Z.to_nat (Z.land x 15) < 16)%nat).
    { rewrite Hland. pose proof (Z.mod_pos_bound x 16). lia. }
    rewrite (hex_value_from_app _ _ _ _ (hex_digit_lookup_value _ Hd)).
    rewrite IH by (rewrite Hshift; apply Z.div_pos; lia).
    f_equal. rewrite Z2Nat.id by (rewrite Hland; pose proof (Z.mod_pos_bound x 16); lia).
    rewrite Hland, Hshift.
    replace (Z.of_nat (S n)) with (1 + Z.of_nat n) by lia.
    rewrite Z.pow_add_r by lia. change (16 ^ 1) with 16.
    rewrite (Z.rem_mul_r x 16 (16 ^ Z.of_nat n)) by lia. lia.
Qed.

Lemma Hex_digits_text n x buf :
  0 ≤ x → (n ≤ length buf)%nat →
  length (take n (Hex_digits n x buf)) = n
  ∧ hex_value (take n (Hex_digits n x buf)) = Some (x mod 16 ^ Z.of_nat n)
  ∧ take n (Hex_digits n x buf) = hex_text n x.
Proof.
  intros Hx Hn. rewrite Hex_digits_spec by done.
  rewrite take_app_length' by (by rewrite hex_text_length).
  split; [apply hex_text_length|]. split; [|done].
  unfold hex_value. rewrite hex_value_from_text by done. f_equal.
Qed.

(** X16.  [Hex32] writes into a buffer of at least 8 characters a text of 8
    upper-case hexadecimal digits that denotes its argument modulo [2^32],
    whatever the buffer held before. *)
Theorem Hex32_round_trip (x : Z) (buf buf' : text) :
  (8 ≤ length buf)%nat → (8 ≤ length buf')%nat →
  length (Hex32 x buf) = 8%nat
  ∧ hex_value (Hex32 x buf) = Some (x mod 2 ^ 32)
  ∧ Hex32 x buf' = Hex32 x buf.
Proof.
  intros Hbuf Hbuf'. unfold Hex32.
  assert (Hx : 0 ≤ x mod 2 ^ 32) by (apply Z.mod_pos_bound; lia).
  destruct (Hex_digits_text 8 _ buf Hx Hbuf) as (Hlen & Hval & Htext).
  destruct (Hex_digits_text 8 _ buf' Hx Hbuf') as (_ & _ & Htext').
  split; [done|]. split; [|congruence].
  rewrite Hval. f_equal. change (16 ^ Z.of_nat 8) with (2 ^ 32).
  apply Z.mod_mod. lia.
Qed.

(** X17.  [Hex64] writes into a buffer of at least 16 characters a text of
    16 upper-case hexadecimal digits that denotes its argument modulo [2^64],
    whatever the buffer held before. *)
Theorem Hex64_round_trip (x : Z) (buf buf' : text) :
  (16 ≤ length buf)%nat → (16 ≤ length buf')%nat →
  length (Hex64 x buf) = 16%nat
  ∧ hex_value (Hex64 x buf) = Some (x mod 2 ^ 64)
  ∧ Hex64 x buf' = Hex64 x buf.
Proof.
  intros Hbuf Hbuf'. unfold Hex64.
  assert (Hx : 0 ≤ x mod 2 ^ 64) by (apply Z.mod_pos_bound; lia).
  destruct (Hex_digits_text 16 _ buf Hx Hbuf) as (Hlen & Hval & Htext).
  destruct (Hex_digits_text 16 _ buf' Hx Hbuf') as (_ & _ & Htext').
  split; [done|]. split; [|congruence].
  rewrite Hval. f_equal. change (16 ^ Z.of_nat 16) with (2 ^ 64).
  apply Z.mod_mod. lia.
Qed.

Lemma new_size_sum (pieces : list text) n :
  foldl (λ new_size piece, new_size + length piece)%nat n pieces
  = (n + length (mjoin pieces))%nat.
Proof.
  revert n. induction pieces as [|piece pieces IH]; intros n; simpl; [lia|].
  rewrite IH, length_app. lia.
Qed.

Lemma memcpy_at_end (written rest piece : text) :
  (length piece ≤ length rest)%nat →
  memcpy (written ++ rest) (length written) piece
  = (written ++ piece) ++ drop (length piece) rest.
Proof.
  intros Hlen. unfold memcpy.
  rewrite <- (Nat.add_0_r (length written)), list_inserts_app_r.
  rewrite <- app_assoc. f_equal.
  rewrite <- (take_drop (length piece) rest) at 1.
  apply list_inserts_0_r. rewrite length_take. lia.
Qed.

Lemma StringCat_copy_spec pieces (written rest : text) :
  length rest = length (mjoin pieces) →
  StringCat_copy pieces (written ++ rest) (length written) = written ++ mjoin pieces.
Proof.
  revert written rest. induction pieces as [|piece pieces IH]; intros written rest Hlen.
  - destruct rest; [done|]. simpl in Hlen. lia.
  - simpl in *. rewrite length_app in Hlen.
    rewrite memcpy_at_end by lia.
    rewrite <- length_app, IH by (rewrite length_drop; lia).
    by rewrite <- app_assoc.
Qed.

(** X18.  [StringCat] returns the concatenation of its pieces: the buffer it
    sizes in its first loop is exactly filled by the copies of its second. *)
Theorem StringCat_concatenates (pieces : list text) :
  StringCat pieces = mjoin pieces.
Proof.
  unfold StringCat. rewrite new_size_sum. simpl.
  apply (StringCat_copy_spec pieces []). by rewrite length_replicate.
Qed.

Lemma ConcatScannerExceptionMessage_unfold stack msg ec ptr loc :
  ConcatScannerExceptionMessage stack msg ec ptr loc
  = msg ++
    (if (ec =? 0) && (ptr =? 0) then []
     else if ptr =? 0 then lit "; error code 0x" ++ Hex32 ec (replicate 8 stack)
     else lit "; ptr = 0x" ++ Hex64 ptr (replicate 16 stack)
          ++ lit "; error code 0x" ++ Hex32 ec (replicate 8 stack))
    ++ location_text loc.
Proof.
  unfold ConcatScannerExceptionMessage, location_text.
  destruct ((ec =? 0) && (ptr =? 0)); [|destruct (ptr =? 0)];
    rewrite StringCat_concatenates; cbn [mjoin list_join];
    rewrite ?app_nil_r, <- ?app_assoc; reflexivity.
Qed.

Lemma Hex32_value x (buf : text) :
  (8 ≤ length buf)%nat →
  length (Hex32 x buf) = 8%nat ∧ hex_value (Hex32 x buf) = Some (x mod 2 ^ 32).
Proof.
  intros Hbuf. unfold Hex32.
  assert (Hx : 0 ≤ x mod 2 ^ 32) by (apply Z.mod_pos_bound; lia).
  destruct (Hex_digits_text 8 _ buf Hx Hbuf) as (Hlen & Hval & _).
  split; [done|]. rewrite Hval. f_equal. change (16 ^ Z.of_nat 8) with (2 ^ 32).
  apply Z.mod_mod. lia.
Qed.

Lemma Hex64_value x (buf : text) :
  (16 ≤ length buf)%nat →
  length (Hex64 x buf) = 16%nat ∧ hex_value (Hex64 x buf) = Some (x mod 2 ^ 64).
Proof.
  intros Hbuf. unfold Hex64.
  assert (Hx : 0 ≤ x mod 2 ^ 64) by (apply Z.mod_pos_bound; lia).
  destruct (Hex_digits_text 16 _ buf Hx Hbuf) as (Hlen & Hval & _).
  split; [done|]. rewrite Hval. f_equal. change (16 ^ Z.of_nat 16) with (2 ^ 64).
  apply Z.mod_mod. lia.
Qed.

Lemma Hex32_inj x x' (buf buf' : text) :
  (8 ≤ length buf)%nat → (8 ≤ length buf')%nat → DWORD_range x → DWORD_range x' →
  Hex32 x buf = Hex32 x' buf' → x = x'.
Proof.
  intros Hb Hb' Hx Hx' Heq. unfold DWORD_range in *.
  destruct (Hex32_value x buf Hb) as (_ & Hv).
  destruct (Hex32_value x' buf' Hb') as (_ & Hv').
  rewrite Heq, Hv' in Hv. injection Hv as Hv.
  rewrite !Z.mod_small in Hv by lia. done.
Qed.

Lemma Hex64_inj x x' (buf buf' : text) :
  (16 ≤ length buf)%nat → (16 ≤ length buf')%nat → IntPtr_range x → IntPtr_range x' →
  Hex64 x buf = Hex64 x' buf' → x = x'.
Proof.
  intros Hb Hb' Hx Hx' Heq. unfold IntPtr_range in *.
  destruct (Hex64_value x buf Hb) as (_ & Hv).
  destruct (Hex64_value x' buf' Hb') as (_ & Hv').
  rewrite Heq, Hv' in Hv. injection Hv as Hv.
  rewrite !Z.mod_small in Hv by lia. done.
Qed.

(** The text between the caller's message and the location. *)
Lemma exception_detail_inj stack stack' ec ptr ec' ptr' loc loc' :
  DWORD_range ec → IntPtr_range ptr → DWORD_range ec' → IntPtr_range ptr' →
  (if (ec =? 0) && (ptr =? 0) then []
   else if ptr =? 0 then lit "; error code 0x" ++ Hex32 ec (replicate 8 stack)
   else lit "; ptr = 0x" ++ Hex64 ptr (replicate 16 stack)
        ++ lit "; error code 0x" ++ Hex32 ec (replicate 8 stack))
  ++ location_text loc
  = (if (ec' =? 0) && (ptr' =? 0) then []
     else if ptr' =? 0 then lit "; error code 0x" ++ Hex32 ec' (replicate 8 stack')
     else lit "; ptr = 0x" ++ Hex64 ptr' (replicate 16 stack')
          ++ lit "; error code 0x" ++ Hex32 ec' (replicate 8 stack'))
    ++ location_text loc' →
  ec = ec' ∧ ptr = ptr'.
Proof.
  intros Hec Hptr Hec' Hptr'.
  assert (H8 : ∀ c : Ascii.ascii, (8 ≤ length (replicate 8 c))%nat)
    by (intros; by rewrite length_replicate).
  assert (H16 : ∀ c : Ascii.ascii, (16 ≤ length (replicate 16 c))%nat)
    by (intros; by rewrite length_replicate).
  pose proof (Hex32_value ec _ (H8 stack)) as [Hl32 _].
  pose proof (Hex32_value ec' _ (H8 stack')) as [Hl32' _].
  pose proof (Hex64_value ptr _ (H16 stack)) as [Hl64 _].
  pose proof (Hex64_value ptr' _ (H16 stack')) as [Hl64' _].
  remember (Hex32 ec (replicate 8 stack)) as h eqn:Hh.
  remember (Hex32 ec' (replicate 8 stack')) as h' eqn:Hh'.
  remember (Hex64 ptr (replicate 16 stack)) as g eqn:Hg.
  remember (Hex64 ptr' (replicate 16 stack')) as g' eqn:Hg'.
  unfold location_text, lit.
  destruct (Z.eqb_spec ec 0) as [Hne|Hne]; destruct (Z.eqb_spec ptr 0) as [Hnp|Hnp];
    destruct (Z.eqb_spec ec' 0) as [Hne'|Hne']; destruct (Z.eqb_spec ptr' 0) as [Hnp'|Hnp'];
    cbn [andb String.list_ascii_of_string app]; rewrite <- ?app_assoc;
    cbn [andb String.list_ascii_of_string app];
    intros Heq; try (split; congruence); try discriminate Heq.
  all: repeat match goal with
       | H : _ :: _ = _ :: _ |- _ => injection H as H
       | H : ?a ++ _ = ?b ++ _ |- _ =>
         is_var a; is_var b; apply app_inj_1 in H; [destruct H as [? ?]|congruence]
       end.
  all: subst h h' g g'.
  all: repeat match goal with
       | H : Hex32 _ _ = Hex32 _ _ |- _ => apply Hex32_inj in H; [|by auto..]
       | H : Hex64 _ _ = Hex64 _ _ |- _ => apply Hex64_inj in H; [|by auto..]
       end.
  all: split; congruence.
Qed.

(** X20.  The text of an exception determines the error code and the
    pointer it was built from, whatever the location and whatever the
    uninitialised digit buffers held. *)
Theorem ConcatScannerExceptionMessage_injective stack stack' msg ec ptr ec' ptr' loc loc' :
  DWORD_range ec → IntPtr_range ptr → DWORD_range ec' → IntPtr_range ptr' →
  ConcatScannerExceptionMessage stack msg ec ptr loc
  = ConcatScannerExceptionMessage stack' msg ec' ptr' loc' →
  ec = ec' ∧ ptr = ptr'.
Proof.
  intros Hec Hptr Hec' Hptr'. rewrite !ConcatScannerExceptionMessage_unfold.
  intros Heq%app_inv_head. by eapply exception_detail_inj.
Qed.

(** X19.  The text of an exception starts with the caller's message and
    ends with the location, [ (file:line)]; nothing stands between the two
    exactly when the error code and the pointer are both zero. *)
Theorem ConcatScannerExceptionMessage_shape stack msg ec ptr loc :
  msg `prefix_of` ConcatScannerExceptionMessage stack msg ec ptr loc
  ∧ location_text loc `suffix_of` ConcatScannerExceptionMessage stack msg ec ptr loc
  ∧ (ec = 0 ∧ ptr = 0 ↔
     ConcatScannerExceptionMessage stack msg ec ptr loc = msg ++ location_text loc).
Proof.
  rewrite ConcatScannerExceptionMessage_unfold. split; [by eexists|].
  split; [rewrite app_assoc; by eexists|].
  split.
  - intros [-> ->]. done.
  - intros Heq%app_inv_head.
    destruct (Z.eqb_spec ec 0) as [->|Hne]; destruct (Z.eqb_spec ptr 0) as [->|Hnp];
      cbn [andb] in Heq; [done|exfalso..].
    all: apply (f_equal length) in Heq; rewrite !length_app in Heq; simpl in Heq; lia.
Qed.

(** X21.  The texts of the exceptions the engine throws tell them apart:
    two throws with the same text are the same failure with the same error
    code and pointer, whatever their locations. *)
Theorem thrown_text_identifies_exception stack stack' e e' loc loc' :
  exception_typed e → exception_typed e' →
  message (thrown_object stack e loc) = message (thrown_object stack' e' loc') →
  e = e'.
Proof.
  intros He He'. assert (H0 : DWORD_range 0) by (unfold DWORD_range; lia).
  assert (H0' : IntPtr_range 0) by (unfold IntPtr_range; lia).
  destruct e as [ec ptr|ec| |], e' as [ec' ptr'|ec'| |]; simpl in He, He' |- *;
    rewrite !ConcatScannerExceptionMessage_unfold; unfold lit;
    cbn [String.list_ascii_of_string app]; intros Heq;
    try discriminate Heq; try reflexivity.
  - destruct He, He'. apply (app_inv_head (lit "Cannot read process memory")) in Heq.
    apply exception_detail_inj in Heq as [-> ->]; done.
  - apply (app_inv_head (lit "Cannot VirtualQueryEx process")) in Heq.
    apply exception_detail_inj in Heq as [-> _]; done.
Qed.

Lemma Hex32_round_trip_witness :
  length (Hex32 (2 ^ 32 + 48879) (replicate 8 NUL)) = 8%nat
  ∧ hex_value (Hex32 (2 ^ 32 + 48879) (replicate 8 NUL)) = Some ((2 ^ 32 + 48879) mod 2 ^ 32)
  ∧ Hex32 (2 ^ 32 + 48879) (replicate 9 Ascii.one)
    = Hex32 (2 ^ 32 + 48879) (replicate 8 NUL).
Proof.
  apply (Hex32_round_trip (2 ^ 32 + 48879) (replicate 8 NUL) (replicate 9 Ascii.one));
    simpl; lia.
Defined.

Lemma Hex64_round_trip_witness :
  length (Hex64 (-1) (replicate 16 NUL)) = 16%nat
  ∧ hex_value (Hex64 (-1) (replicate 16 NUL)) = Some ((-1) mod 2 ^ 64)
  ∧ Hex64 (-1) (replicate 20 Ascii.one) = Hex64 (-1) (replicate 16 NUL).
Proof.
  apply (Hex64_round_trip (-1) (replicate 16 NUL) (replicate 20 Ascii.one));
    simpl; lia.
Defined.

Lemma ConcatScannerExceptionMessage_injective_witness :
  5 = 5 ∧ 4096 = 4096.
Proof.
  apply (ConcatScannerExceptionMessage_injective NUL Ascii.one
           (lit "Cannot read process memory") 5 4096 5 4096
           {| file_name := lit "memory_scanner.cpp"; line := 27 |}
           {| file_name := lit "memory_scanner.cpp"; line := 27 |});
    first [ unfold DWORD_range; lia | unfold IntPtr_range; lia | vm_compute; reflexivity ].
Defined.

Lemma thrown_text_identifies_exception_witness :
  Cannot_read_process_memory 5 4096 = Cannot_read_process_memory 5 4096.
Proof.
  apply (thrown_text_identifies_exception NUL Ascii.one
           (Cannot_read_process_memory 5 4096) (Cannot_read_process_memory 5 4096)
           {| file_name := lit "memory_scanner.cpp"; line := 27 |}
           {| file_name := lit "memory_scanner.cpp"; line := 27 |});
    first [ split; [unfold DWORD_range; lia | unfold IntPtr_range; lia]
          | vm_compute; reflexivity ].
Defined.

(** The text [ReadRegionData] throws for error code 5 at address [0x1000]. *)
Example Cannot_read_process_memory_text :
  ConcatScannerExceptionMessage NUL (lit "Cannot read process memory") 5 4096
    {| file_name := lit "memory_scanner.cpp"; line := 27 |}
  = lit "Cannot read process memory; ptr = 0x0000000000001000; error code 0x00000005 (memory_scanner.cpp:27)".
Proof. vm_compute. reflexivity. Qed.
